(** * An Earley chart builder and recogniser (earley.py), embedded in Rocq

    The Python module builds an Earley parse chart with a worklist loop over
    three expansion rules (predictor, scanner, completer) and then queries the
    chart with [recognizer].  The embedding below follows the source function
    by function:

    - a Python [dict] grammar is a [gmap] from symbols to production lists;
    - tuples [(key, rule, dot, index)] are Rocq tuples, with [dot] and [index]
      unbounded Python integers, hence [Z];
    - the [deque]s are lists ([popleft] takes the head, [extend]/[append] add
      at the end);
    - an [OrderedSet] is a list in insertion order whose [add] ignores an
      element already present;
    - symbols are strings, as in both test drivers; the end marker [None]
      that [chart] appends to the input is the [None] of [option Symbol], so
      no symbol of a grammar equals it;
    - exceptions are explicit: every operation returns a [result];
    - the [while activeQ:] loop has no syntactic bound, so it is run with a
      step budget; [OutOfFuel] reports a budget chosen too small, and
      [chart_terminates] shows that some budget always suffices. *)

From stdpp Require Import gmap strings list fin_maps pretty.
From Stdlib Require Import ZArith Lia Ascii.

Local Open Scope Z_scope.

(** ** Results of Python computations *)

Inductive exn : Type :=
  | KeyError
  | IndexError
  | ValueError
  | TypeError.

Inductive result (A : Type) : Type :=
  | Ok (a : A)
  | Raise (e : exn)
  | OutOfFuel.

Arguments Ok {A} a.
Arguments Raise {A} e.
Arguments OutOfFuel {A}.

(** Sequencing: the first exception (or the exhausted budget) aborts what
    follows.  This gives stdpp's [x ← m; k] notation for [result]. *)
#[global] Instance result_bind : MBind result := λ A B k m,
  match m with
  | Ok a => k a
  | Raise e => Raise e
  | OutOfFuel => OutOfFuel
  end.

(** ** Data model *)

Abbreviation Symbol := string.
Abbreviation Production := (list Symbol).
Abbreviation Item := (Symbol * Production * Z * Z)%type.
Abbreviation StateSet := (list Item).
Abbreviation Grammar := (gmap Symbol (list Production)).

(** [len(l)] as a Python integer. *)
Definition len {A : Type} (l : list A) : Z := Z.of_nat (length l).

(** [l[z]]: a negative index counts from the end, anything outside
    [-len(l) .. len(l)-1] raises [IndexError]. *)
Definition getitem {A : Type} (l : list A) (z : Z) : result A :=
  let z' := if z <? 0 then z + len l else z in
  if (0 <=? z') && (z' <? len l) then
    match l !! Z.to_nat z' with
    | Some x => Ok x
    | None => Raise IndexError
    end
  else Raise IndexError.

(** [x in grammar] for a dict: membership among the keys. *)
Definition contains (grammar : Grammar) (x : Symbol) : bool :=
  bool_decide (is_Some (grammar !! x)).

(** [grammar[key]]. *)
Definition productions_of (grammar : Grammar) (key : Symbol)
  : result (list Production) :=
  match grammar !! key with
  | Some rules => Ok rules
  | None => Raise KeyError
  end.

(** [x in s] for a list, deque or OrderedSet of items. *)
Definition mem (x : Item) (s : list Item) : bool := bool_decide (x ∈ s).

(** [OrderedSet.add]. *)
Definition add (item : Item) (s : StateSet) : StateSet :=
  if mem item s then s else s ++ [item].

(** [history[-1].add(item)]: the set object at the last index is updated in
    place. *)
Definition add_last (history : list StateSet) (item : Item)
  : result (list StateSet) :=
  match history with
  | [] => Raise IndexError
  | _ => Ok (alter (add item) (length history - 1)%nat history)
  end.

(** ** The three expansion rules *)

Definition predictor (key : Symbol) (grammar : Grammar) (seen : StateSet)
    (i : Z) : result (list Item) :=
  rules ← productions_of grammar key;
  Ok (filter (λ it, it ∉ seen)
        ((λ production, (key, production, 0, i)) <$> (rules : list Production))).

Fixpoint completer (key : Symbol) (search_set seen : StateSet)
  : result (list Item) :=
  match search_set with
  | [] => Ok []
  | (pk, pr, pd, pi) :: rest =>
      if pd <=? len pr then
        x ← getitem pr pd;
        if bool_decide (key = x) && negb (mem (pk, pr, pd + 1, pi) seen) then
          tl ← completer key rest seen;
          Ok ((pk, pr, pd + 1, pi) :: tl)
        else completer key rest seen
      else completer key rest seen
  end.

Definition scanner (item : Item) (token : option Symbol) (Q : list Item)
  : result (list Item) :=
  let '(key, rule, dot, index) := item in
  let scanned := (key, rule, dot + 1, index) in
  x ← getitem rule dot;
  if bool_decide (Some x = token) && negb (mem scanned Q) then
    Ok (Q ++ [(key, rule, dot + 1, index)])
  else Ok Q.

(** ** The worklist loop *)

Abbreviation State := (list StateSet * list Item * list Item)%type.

(** One pass through the body of [while activeQ:], for the [item] just taken
    from the left of [activeQ]. *)
Definition step (grammar : Grammar) (i : Z) (ch : option Symbol) (item : Item)
    (history : list StateSet) (activeQ nextQ : list Item) : result State :=
  history ← add_last history item;
  let '(key, rule, dot, index) := item in
  if dot <? len rule then
    x ← getitem rule dot;
    if contains grammar x then
      seen ← getitem history i;
      new ← predictor x grammar seen i;
      Ok (history, activeQ ++ new, nextQ)
    else
      nextQ ← scanner item ch nextQ;
      Ok (history, activeQ, nextQ)
  else
    search_set ← getitem history index;
    seen ← getitem history i;
    new ← completer key search_set seen;
    Ok (history, activeQ ++ new, nextQ).

Fixpoint drain (fuel : nat) (grammar : Grammar) (i : Z) (ch : option Symbol)
    (history : list StateSet) (activeQ nextQ : list Item) : result State :=
  match activeQ with
  | [] => Ok (history, activeQ, nextQ)
  | item :: activeQ =>
      match fuel with
      | O => OutOfFuel
      | S fuel =>
          '(history, activeQ, nextQ) ← step grammar i ch item history activeQ nextQ;
          drain fuel grammar i ch history activeQ nextQ
      end
  end.

(** The [for i, ch in enumerate(inp + [None])] loop, from index [i] on. *)
Fixpoint run (fuel : nat) (grammar : Grammar) (i : Z)
    (tokens : list (option Symbol))
    (history : list StateSet) (activeQ nextQ : list Item) : result State :=
  match tokens with
  | [] => Ok (history, activeQ, nextQ)
  | ch :: tokens =>
      let history := history ++ [[]] in
      let '(activeQ, nextQ) := (nextQ, activeQ) in
      '(history, activeQ, nextQ) ← drain fuel grammar i ch history activeQ nextQ;
      run fuel grammar (i + 1) tokens history activeQ nextQ
  end.

Definition chart (fuel : nat) (grammar : Grammar) (start : Symbol)
    (inp : list Symbol) : result (list StateSet) :=
  rules ← productions_of grammar start;
  let history := [] in
  let activeQ := [] in
  let nextQ := (λ rule, (start, rule, 0, 0)) <$> (rules : list Production) in
  '(history, _, _) ← run fuel grammar 0 ((Some <$> inp) ++ [None]) history activeQ nextQ;
  Ok history.

(** ** The recogniser

    [recognizer] unpacks whatever it is handed with two nested [for] clauses,
    so what it does depends on the run-time shape of its argument.  It is
    therefore embedded over a small universe of Python values: the values
    that occur in charts, with the iteration, unpacking, equality, [len] and
    [>=] of Python on them. *)

#[warnings="-register-all"]
Inductive pyval : Type :=
  | PNone
  | PInt (z : Z)
  | PStr (s : string)
  | PTuple (l : list pyval)
  | PList (l : list pyval).

(** [a == b]. *)
Fixpoint py_eqb (a b : pyval) : bool :=
  match a, b with
  | PNone, PNone => true
  | PInt x, PInt y => bool_decide (x = y)
  | PStr x, PStr y => bool_decide (x = y)
  | PTuple x, PTuple y | PList x, PList y =>
      (fix go (x y : list pyval) : bool :=
         match x, y with
         | [], [] => true
         | a :: x, b :: y => py_eqb a b && go x y
         | _, _ => false
         end) x y
  | _, _ => false
  end.

(** The elements [for e in v] runs through: a string yields its characters
    as one-character strings, [None] and integers are not iterable. *)
Definition py_iter (v : pyval) : result (list pyval) :=
  match v with
  | PStr s => Ok ((λ c, PStr (String c EmptyString)) <$> String.list_ascii_of_string s)
  | PTuple l | PList l => Ok l
  | PNone | PInt _ => Raise TypeError
  end.

(** The target list [key, rule, dot, index] bound to [v]. *)
Definition unpack4 (v : pyval) : result (pyval * pyval * pyval * pyval) :=
  l ← py_iter v;
  match l with
  | [a; b; c; d] => Ok (a, b, c, d)
  | _ => Raise ValueError
  end.

(** [len(v)]. *)
Definition py_len (v : pyval) : result Z :=
  l ← py_iter v; Ok (len l).

(** [v >= n] for an integer [n]. *)
Definition py_ge (v : pyval) (n : Z) : result bool :=
  match v with
  | PInt d => Ok (n <=? d)
  | _ => Raise TypeError
  end.

(** [index == 0 and key == start and dot >= len(rule)], after unpacking
    [e]; [and] evaluates its right operand only when the left one is true. *)
Definition spans_input (start e : pyval) : result bool :=
  '(key, rule, dot, index) ← unpack4 e;
  if py_eqb index (PInt 0) then
    if py_eqb key start then (n ← py_len rule; py_ge dot n)
    else Ok false
  else Ok false.

(** [any] over the inner [for] clause; [k] is what the rest of the generator
    gives.  [any] stops at the first true element. *)
Fixpoint any_in (start : pyval) (es : list pyval) (k : result bool)
  : result bool :=
  match es with
  | [] => k
  | e :: es => b ← spans_input start e;
      if (b : bool) then Ok true else any_in start es k
  end.

Fixpoint any_of (start : pyval) (items : list pyval) : result bool :=
  match items with
  | [] => Ok false
  | item :: items => es ← py_iter item; any_in start es (any_of start items)
  end.

Definition recognizer (start last_page : pyval) : result bool :=
  items ← py_iter last_page; any_of start items.

(** Charts as Python values.  An [OrderedSet] is only iterated here, in
    insertion order, so it is injected as a sequence. *)
Definition of_item (it : Item) : pyval :=
  let '(key, rule, dot, index) := it in
  PTuple [PStr key; PTuple (PStr <$> rule); PInt dot; PInt index].

Definition of_page (page : StateSet) : pyval := PList (of_item <$> page).

Definition of_chart (history : list StateSet) : pyval :=
  PList (of_page <$> history).

(** The test [recognizer] applies to a tuple it manages to unpack. *)
Definition spans (start : Symbol) (it : Item) : bool :=
  let '(key, rule, dot, index) := it in
  bool_decide (index = 0) && bool_decide (key = start) && (len rule <=? dot).

(** [recognizer(start, chart(grammar, start, inp))], as [small_test] and
    [larger_test] call it. *)
Definition recognize_chart (fuel : nat) (grammar : Grammar) (start : Symbol)
    (inp : list Symbol) : result bool :=
  history ← chart fuel grammar start inp;
  recognizer (PStr start) (of_chart history).

(** [recognizer(start, chart(grammar, start, inp)[-1])]: the recogniser on
    the final state set alone. *)
Definition recognize_last (fuel : nat) (grammar : Grammar) (start : Symbol)
    (inp : list Symbol) : result bool :=
  history ← chart fuel grammar start inp;
  last_page ← getitem history (-1);
  recognizer (PStr start) (of_page last_page).

(** ** The grammars of [small_test] and [larger_test] *)

Local Open Scope string_scope.

Definition small_grammar : Grammar :=
  list_to_map
    [ ("P", [["S"]]);
      ("S", [["S"; "+"; "M"]; ["M"]]);
      ("M", [["M"; "*"; "T"]; ["T"]]);
      ("T", [["1"]; ["2"]; ["3"]; ["4"]]) ].

Definition larger_grammar : Grammar :=
  list_to_map
    [ ("START", [["Sum"]]);
      ("Sum", [["Product"]; ["Sum"; "+"; "Product"]; ["Sum"; "-"; "Product"]]);
      ("Product", [["Factor"]; ["Product"; "*"; "Factor"]; ["Product"; "/"; "Factor"]]);
      ("Factor", [["("; "Sum"; ")"]; ["Number"]]);
      ("Number", [["Digit"; "Number"]; ["Digit"]]);
      ("Digit", [["0"]; ["1"]; ["2"]; ["3"]; ["4"]; ["5"]; ["6"]; ["7"]; ["8"]; ["9"]]) ].

(** [list(s)]: the one-character strings of [s]. *)
Definition chars (s : string) : list Symbol :=
  (λ c, String c EmptyString) <$> String.list_ascii_of_string s.

(** The grammar with one nonterminal whose only production is empty. *)
Definition nullable_grammar : Grammar := list_to_map [ ("S", [[]]) ].

(** A grammar whose nonterminal [A] has an empty list of productions. *)
Definition hollow_grammar : Grammar :=
  list_to_map [ ("S", [["A"]]); ("A", []) ].

(** The chart [chart] builds from [small_grammar] and start symbol "P" for
    the input "2+": three state sets, in insertion order. *)
Definition chart_2_plus : list StateSet :=
  [ [ ("P", ["S"], 0, 0); ("S", ["S"; "+"; "M"], 0, 0); ("S", ["M"], 0, 0);
      ("M", ["M"; "*"; "T"], 0, 0); ("M", ["T"], 0, 0); ("T", ["1"], 0, 0);
      ("T", ["2"], 0, 0); ("T", ["3"], 0, 0); ("T", ["4"], 0, 0) ];
    [ ("T", ["2"], 1, 0); ("M", ["T"], 1, 0); ("S", ["M"], 1, 0);
      ("M", ["M"; "*"; "T"], 1, 0); ("P", ["S"], 1, 0);
      ("S", ["S"; "+"; "M"], 1, 0) ];
    [ ("S", ["S"; "+"; "M"], 2, 0); ("M", ["M"; "*"; "T"], 0, 2);
      ("M", ["T"], 0, 2); ("T", ["1"], 0, 2); ("T", ["2"], 0, 2);
      ("T", ["3"], 0, 2); ("T", ["4"], 0, 2) ] ].

Local Close Scope string_scope.

(** ** Vocabulary of the specification *)

(** The item with its dot moved one symbol to the right. *)
Definition advance (it : Item) : Item :=
  let '(key, rule, dot, index) := it in (key, rule, dot + 1, index).

(** The symbol right after the dot of [it] is [x]. *)
Definition expects (it : Item) (x : Symbol) : Prop :=
  let '(_, rule, dot, _) := it in 0 ≤ dot ∧ rule !! Z.to_nat dot = Some x.

(** An item that may sit at position [n]: the dot is inside its production
    and the origin is a position up to [n]. *)
Definition wf_item (n : nat) (it : Item) : Prop :=
  let '(_, rule, dot, index) := it in
  0 ≤ dot ≤ len rule ∧ 0 ≤ index ≤ Z.of_nat n.

(** [it] is in the state set at position [j] of [history]. *)
Definition at_pos (history : list StateSet) (j : nat) (it : Item) : Prop :=
  ∃ S, history !! j = Some S ∧ it ∈ S.

(** A chart is closed when each of the three rules, applied to an item of
    the state set at [i], only yields items that are present in the state
    set the rule targets: [i] for Predict and Complete, [i + 1] for Scan. *)
Definition closed (g : Grammar) (inp : list Symbol) (history : list StateSet)
  : Prop :=
  ∀ (i : nat) (it : Item), at_pos history i it →
    (∀ x rules production,
        expects it x → g !! x = Some rules → production ∈ rules →
        at_pos history i (x, production, 0, Z.of_nat i))
    ∧ (∀ x,
        expects it x → g !! x = None → inp !! i = Some x →
        at_pos history (S i) (advance it))
    ∧ (∀ key rule dot index w,
        it = (key, rule, dot, index) → len rule ≤ dot → 0 ≤ index →
        at_pos history (Z.to_nat index) w → expects w key →
        at_pos history i (advance w)).

(** ** The loop invariant

    While position [n] is being drained, an item a rule owes to position
    [j] is either already in the state set at [j] or still waiting in the
    queue that feeds it. *)
Definition pending (n : nat) (history : list StateSet)
    (activeQ nextQ : list Item) (j : nat) (it : Item) : Prop :=
  at_pos history j it ∨ (j = n ∧ it ∈ activeQ) ∨ (j = S n ∧ it ∈ nextQ).

Record Inv (g : Grammar) (tokens : list (option Symbol)) (n : nat)
    (history : list StateSet) (activeQ nextQ : list Item) : Prop := {
  inv_length : length history = S n;
  inv_nodup : ∀ j S, history !! j = Some S → NoDup S;
  inv_wf : ∀ j it, at_pos history j it → wf_item j it;
  inv_active : ∀ it, it ∈ activeQ → wf_item n it;
  inv_next : ∀ it, it ∈ nextQ → wf_item (S n) it;
  inv_predict : ∀ j it x rules production,
    at_pos history j it → expects it x →
    g !! x = Some rules → production ∈ rules →
    pending n history activeQ nextQ j (x, production, 0, Z.of_nat j);
  inv_scan : ∀ j it x,
    at_pos history j it → expects it x →
    g !! x = None → tokens !! j = Some (Some x) →
    pending n history activeQ nextQ (S j) (advance it);
  inv_complete : ∀ j key rule dot index,
    at_pos history j (key, rule, dot, index) → len rule ≤ dot →
    index < Z.of_nat j
    ∧ ∀ w, at_pos history (Z.to_nat index) w → expects w key →
           pending n history activeQ nextQ j (advance w)
}.

(** [P] holds of everything that is in a state set or waits in a queue. *)
Definition all_pending (P : nat → Item → Prop) (n : nat)
    (history : list StateSet) (activeQ nextQ : list Item) : Prop :=
  ∀ j it, pending n history activeQ nextQ j it → P j it.

#[global] Instance expects_dec (it : Item) (x : Symbol) :
  Decision (expects it x).
Proof. destruct it as [[[key rule] dot] index]. simpl. apply _. Defined.

(** ** Termination measure

    Every item Predict or Complete can put into the queue of position [n]:
    the items [(x, production, 0, n)] of the grammar and the advanced copies
    of the items of the earlier state sets. *)
Definition candidates (g : Grammar) (n : nat) (history : list StateSet)
  : list Item :=
  (map_to_list g ≫= λ '(x, rules),
     (λ production : Production, (x, production, 0, Z.of_nat n)) <$> rules)
  ++ (take n history ≫= fmap advance).

(** The queue entries that are in the state set already. *)
Definition stale (seen : StateSet) (Q : list Item) : nat :=
  length (filter (λ it, it ∈ seen) Q).

(** The items of [U] the state set does not hold yet. *)
Definition unseen (U : gset Item) (seen : StateSet) : nat :=
  size (U ∖ list_to_set seen).

(** ** The chart of completed items *)

(** [OrderedSet(iterable)]: the elements are added one by one, so a repeated
    element keeps its first place. *)
Definition OrderedSet (items : list Item) : StateSet :=
  foldl (λ s it, add it s) [] items.

(** [parse] walks the chart from its last state set to its first and keeps,
    in each, the items whose dot is at or past the end of the production
    ([item[2] >= len(item[1])]).  The argument [inp] is not used. *)
Definition parse (chart : list StateSet) (inp : list Symbol)
  : list StateSet :=
  (λ page : StateSet,
     OrderedSet (filter (λ item : Item, len item.1.1.2 ≤ item.1.2) page))
  <$> reverse chart.

(** ** Printing a chart

    [print_chart] writes lines to standard output; the embedding returns the
    lines in the order they are printed, together with a flag that tells
    whether the call ran to its end.  Symbols are strings of one-byte
    characters, so the width [len] counts for padding is the length of the
    Rocq string. *)

(** [str(z)]: the decimal numeral of an integer. *)
Definition str (z : Z) : string := pretty z.

(** [c * n] for a one-character string [c]. *)
Fixpoint repeat_char (c : Ascii.ascii) (n : nat) : string :=
  match n with
  | O => EmptyString
  | S n => String c (repeat_char c n)
  end.

(** The format specifications [{:>w}] and [{:<w}]: pad with spaces on the
    left, or on the right, up to width [w]; a longer text is left as it
    is. *)
Definition align_right (w : nat) (s : string) : string :=
  repeat_char " "%char (w - String.length s) +:+ s.

Definition align_left (w : nat) (s : string) : string :=
  s +:+ repeat_char " "%char (w - String.length s).

(** [ruler(i)]: ['{} {} {}'.format('='*6, i, '='*50)]. *)
Definition print_chart_ruler (i : Z) : string :=
  repeat_char "="%char 6 +:+ " " +:+ str i +:+ " " +:+ repeat_char "="%char 50.

(** [key(i, k)]: ['({:>2}) {:>12} -> '.format(i, k)]. *)
Definition print_chart_key (i : Z) (k : Symbol) : string :=
  "(" +:+ align_right 2 (str i) +:+ ") " +:+ align_right 12 k +:+ " -> ".

(** The [for] loop of [rule(item)], from index [i] on, with [out] the text
    built so far. *)
Fixpoint print_chart_rule_loop (dot : Z) (comps : list Symbol) (i : Z)
    (out : string) : string :=
  match comps with
  | [] => out
  | comp :: comps =>
      let out := if bool_decide (i = dot) then out +:+ " @ " else out in
      print_chart_rule_loop dot comps (i + 1) (out +:+ comp +:+ " ")
  end.

(** [rule(item)].  After the loop the local [i] holds the last index; over
    an empty production the loop binds nothing and reading [i] raises
    [UnboundLocalError], which is the [None] here. *)
Definition print_chart_rule (item : Item) : option string :=
  let '(_, rule, dot, _) := item in
  match rule with
  | [] => None
  | _ =>
      let out := print_chart_rule_loop dot rule 0 "" in
      let i := len rule - 1 in
      Some (if bool_decide (i + 1 ≤ dot) then out +:+ " @ " else out)
  end.

(** The inner loop [for j, item in enumerate(page)], from index [j] on: the
    lines printed, and whether the loop ran to its end. *)
Fixpoint print_chart_items (j : Z) (page : list Item) : list string * bool :=
  match page with
  | [] => ([], true)
  | item :: page =>
      match print_chart_rule item with
      | None => ([], false)
      | Some text =>
          let line :=
            String (Ascii.ascii_of_nat 9)
              (align_left 20 (print_chart_key j item.1.1.1)
               +:+ align_left 25 text
               +:+ "(" +:+ str item.2 +:+ ")") in
          let '(lines, ok) := print_chart_items (j + 1) page in
          (line :: lines, ok)
      end
  end.

(** The outer loop [for i, page in zip(page_counter, chart)]. *)
Fixpoint print_chart_pages (pages : list (Z * StateSet))
  : list string * bool :=
  match pages with
  | [] => ([], true)
  | (i, page) :: pages =>
      let '(lines, ok) := print_chart_items 0 page in
      if ok then
        let '(lines', ok') := print_chart_pages pages in
        (print_chart_ruler i :: lines ++ lines', ok')
      else (print_chart_ruler i :: lines, false)
  end.

(** [range(len(chart)-1, -1, -1) if rev else range(len(chart))]. *)
Definition page_counter (n : nat) (rev : bool) : list Z :=
  if rev then reverse (Z.of_nat <$> seq 0 n) else Z.of_nat <$> seq 0 n.

Definition print_chart (chart : list StateSet) (rev : bool)
  : list string * bool :=
  print_chart_pages (zip (page_counter (length chart) rev) chart).

(** The symbols of [l], each followed by one space. *)
Definition symbols_text (l : list Symbol) : string :=
  foldr (λ comp text, comp +:+ " " +:+ text) "" l.

(** ** What the grammar derives

    A symbol is a nonterminal exactly when it is a key of the grammar, which
    is how [chart] tells Predict from Scan.  [derives g alpha w]: the symbol
    sequence [alpha] derives the token sequence [w]. *)
Inductive derives (g : Grammar) : list Symbol → list Symbol → Prop :=
  | derives_nil : derives g [] []
  | derives_terminal x alpha w :
      g !! x = None → derives g alpha w → derives g (x :: alpha) (x :: w)
  | derives_nonterminal x rules production alpha w1 w2 :
      g !! x = Some rules → production ∈ rules →
      derives g production w1 → derives g alpha w2 →
      derives g (x :: alpha) (w1 ++ w2).

(** The tokens of [inp] from position [o] up to position [i]. *)
Definition span (inp : list Symbol) (o i : nat) : list Symbol :=
  take (i - o) (drop o inp).

(** What an item at position [i] stands for: its production belongs to its
    nonterminal, and the symbols before the dot derive the input between the
    origin and [i]. *)
Definition valid_item (g : Grammar) (inp : list Symbol) (i : nat) (it : Item)
  : Prop :=
  let '(key, rule, dot, index) := it in
  ∃ rules, g !! key = Some rules ∧ rule ∈ rules
    ∧ derives g (take (Z.to_nat dot) rule) (span inp (Z.to_nat index) i).

(** The items the three rules generate from the seeds, position by
    position. *)
Inductive Derivable (g : Grammar) (inp : list Symbol) (start : Symbol)
  : nat → Item → Prop :=
  | Derivable_seed rules rule :
      g !! start = Some rules → rule ∈ rules →
      Derivable g inp start 0 (start, rule, 0, 0)
  | Derivable_predict n it x rules production :
      Derivable g inp start n it → expects it x →
      g !! x = Some rules → production ∈ rules →
      Derivable g inp start n (x, production, 0, Z.of_nat n)
  | Derivable_scan n it x :
      Derivable g inp start n it → expects it x →
      g !! x = None → inp !! n = Some x →
      Derivable g inp start (S n) (advance it)
  | Derivable_complete n key rule dot index w :
      Derivable g inp start n (key, rule, dot, index) →
      len rule ≤ dot → 0 ≤ index →
      Derivable g inp start (Z.to_nat index) w → expects w key →
      Derivable g inp start n (advance w).

(** * Properties *)

(** ** Indexing *)

Lemma len_nonneg {A} (l : list A) : 0 ≤ len l.
Proof. unfold len. lia. Qed.

Lemma getitem_nonneg {A} (l : list A) (z : Z) (x : A) :
  0 ≤ z → getitem l z = Ok x → l !! Z.to_nat z = Some x ∧ z < len l.
Proof.
  intros Hz. unfold getitem.
  destruct (Z.ltb_spec z 0) as [?|_]; [lia|].
  destruct (Z.leb_spec 0 z) as [_|?]; [|lia]. simpl.
  destruct (Z.ltb_spec z (len l)); [|discriminate].
  destruct (l !! Z.to_nat z) eqn:E; [|discriminate].
  intros [= ->]. done.
Qed.

Lemma getitem_lookup {A} (l : list A) (n : nat) (x : A) :
  l !! n = Some x → getitem l (Z.of_nat n) = Ok x.
Proof.
  intros H. unfold getitem. pose proof (lookup_lt_Some _ _ _ H) as Hlt.
  destruct (Z.ltb_spec (Z.of_nat n) 0) as [?|_]; [lia|].
  destruct (Z.leb_spec 0 (Z.of_nat n)) as [_|?]; [|lia]. simpl.
  destruct (Z.ltb_spec (Z.of_nat n) (len l)) as [_|?]; [|unfold len in *; lia].
  by rewrite Nat2Z.id, H.
Qed.

Lemma getitem_past_end {A} (l : list A) (z : Z) :
  len l ≤ z → getitem l z = Raise IndexError.
Proof.
  intros Hz. pose proof (len_nonneg l). unfold getitem.
  destruct (Z.ltb_spec z 0) as [?|_]; [lia|].
  destruct (Z.ltb_spec z (len l)) as [?|_]; [lia|].
  by rewrite andb_false_r.
Qed.

(** ** Fuel: a larger budget never changes a result *)

Lemma drain_more (k fuel : nat) g i ch history activeQ nextQ :
  drain fuel g i ch history activeQ nextQ ≠ OutOfFuel →
  drain (fuel + k) g i ch history activeQ nextQ
  = drain fuel g i ch history activeQ nextQ.
Proof.
  revert history activeQ nextQ.
  induction fuel as [|fuel IH]; intros history activeQ nextQ;
    destruct activeQ as [|item activeQ]; simpl; try done.
  - by destruct k.
  - destruct (step g i ch item history activeQ nextQ) as [[[h a] n]| |];
      simpl; auto.
Qed.

Lemma run_more (k fuel : nat) g tokens i history activeQ nextQ :
  run fuel g i tokens history activeQ nextQ ≠ OutOfFuel →
  run (fuel + k) g i tokens history activeQ nextQ
  = run fuel g i tokens history activeQ nextQ.
Proof.
  revert i history activeQ nextQ.
  induction tokens as [|ch tokens IH]; intros i history activeQ nextQ; simpl;
    [done|].
  intros H.
  rewrite drain_more; [|by intros E; rewrite E in H].
  destruct (drain fuel g i ch (history ++ [[]]) nextQ activeQ)
    as [[[h a] n]| |]; simpl in *; auto.
Qed.

Lemma chart_more (fuel fuel' : nat) g start inp :
  (fuel ≤ fuel')%nat →
  chart fuel g start inp ≠ OutOfFuel →
  chart fuel' g start inp = chart fuel g start inp.
Proof.
  intros Hle. replace fuel' with (fuel + (fuel' - fuel))%nat by lia.
  unfold chart. destruct (productions_of g start) as [rules| |]; simpl;
    try done.
  intros H. rewrite run_more; [done|]. by intros E; rewrite E in H.
Qed.

(** ** The recogniser *)

Lemma spans_input_of_item (start : Symbol) (it : Item) :
  spans_input (PStr start) (of_item it) = Ok (spans start it).
Proof.
  destruct it as [[[key rule] dot] index]. unfold spans_input, spans. simpl.
  unfold len. rewrite length_fmap.
  repeat case_bool_decide; simpl; first [done | congruence].
Qed.

Lemma any_in_of_items (start : Symbol) (page : StateSet) (k : result bool) :
  any_in (PStr start) (of_item <$> page) k
  = if existsb (spans start) page then Ok true else k.
Proof.
  induction page as [|it page IH]; simpl; [done|].
  rewrite spans_input_of_item. simpl. by destruct (spans start it).
Qed.

(** What the code computes when it is handed the whole chart, as the two
    test drivers do: an item spanning from origin 0 in ANY state set. *)
Lemma recognizer_of_chart (start : Symbol) (history : list StateSet) :
  recognizer (PStr start) (of_chart history)
  = Ok (existsb (existsb (spans start)) history).
Proof.
  unfold recognizer, of_chart. cbn [py_iter mbind result_bind].
  induction history as [|page history IH]; [done|].
  rewrite fmap_cons. cbn [any_of existsb]. rewrite IH. unfold of_page.
  cbn [py_iter mbind result_bind].
  rewrite any_in_of_items. by destruct (existsb (spans start) page).
Qed.

Lemma spans_input_str (start : pyval) (s : string) :
  spans_input start (PStr s) = Ok false
  ∨ spans_input start (PStr s) = Raise ValueError.
Proof.
  unfold spans_input, unpack4. simpl.
  destruct (String.list_ascii_of_string s) as [|a [|b [|c [|d [|e l]]]]];
    simpl; auto.
Qed.

Lemma spans_input_rule (start : pyval) (rule : Production) :
  spans_input start (PTuple (PStr <$> rule)) = Ok false
  ∨ spans_input start (PTuple (PStr <$> rule)) = Raise ValueError.
Proof.
  unfold spans_input, unpack4. simpl.
  destruct rule as [|a [|b [|c [|d [|e l]]]]]; simpl; auto.
Qed.

Lemma spans_input_int (start : pyval) (z : Z) :
  spans_input start (PInt z) = Raise TypeError.
Proof. done. Qed.

Lemma any_in_fields (start : pyval) (it : Item) (k : result bool) :
  (es ← py_iter (of_item it); any_in start es k) = Raise ValueError
  ∨ (es ← py_iter (of_item it); any_in start es k) = Raise TypeError.
Proof.
  destruct it as [[[key rule] dot] index]. simpl.
  destruct (spans_input_str start key) as [-> | ->]; simpl; auto.
  destruct (spans_input_rule start rule) as [-> | ->]; simpl; auto.
Qed.

(** C1.  On one state set, the value the parameter [last_page] is named
    for, the two nested [for] clauses take each item apart field by field:
    the recogniser answers false on the empty state set and raises on every
    other one, so it never reports the completed start item the set may
    hold. *)
Theorem recognizer_last_page (start : pyval) (page : StateSet) :
  (page = [] ∧ recognizer start (of_page page) = Ok false)
  ∨ (page ≠ []
     ∧ (recognizer start (of_page page) = Raise ValueError
        ∨ recognizer start (of_page page) = Raise TypeError)).
Proof.
  destruct page as [|it page]; [by left|right]. split; [done|].
  unfold recognizer, of_page. simpl. apply any_in_fields.
Qed.

Example recognizer_completed_start_item :
  spans "P" ("P"%string, ["S"%string], 1, 0) = true
  ∧ recognizer (PStr "P") (of_page [("P"%string, ["S"%string], 1, 0)])
    = Raise ValueError.
Proof. by vm_compute. Qed.

(** Handed the whole chart for "2+", the recogniser answers true although
    no item of the final state set spans the input from the start symbol. *)
Example recognizer_chart_2_plus :
  recognizer (PStr "P") (of_chart chart_2_plus) = Ok true
  ∧ existsb (spans "P") (default [] (last chart_2_plus)) = false.
Proof. by vm_compute. Qed.

(** C2.  With the grammar of [small_test] and the incomplete input "2+",
    the call pattern of [small_test], [recognizer('P', chart(...))], answers
    true, because the state set after "2" holds the completed item
    [P -> S .] of origin 0; on the final state set alone the recogniser
    raises [ValueError].  It answers false in neither form. *)
Theorem small_test_incomplete_input (fuel : nat) :
  (64 ≤ fuel)%nat →
  recognize_chart fuel small_grammar "P" (chars "2+") = Ok true
  ∧ recognize_last fuel small_grammar "P" (chars "2+") = Raise ValueError.
Proof.
  intros Hfuel. unfold recognize_chart, recognize_last.
  rewrite (chart_more 64 fuel); [by vm_compute | lia | by vm_compute].
Qed.

Lemma small_test_incomplete_input_witness :
  recognize_chart 64 small_grammar "P" (chars "2+") = Ok true
  ∧ recognize_last 64 small_grammar "P" (chars "2+") = Raise ValueError.
Proof. apply (small_test_incomplete_input 64). lia. Defined.

Example small_test_complete_input :
  recognize_chart 64 small_grammar "P" (chars "2+3*4") = Ok true.
Proof. by vm_compute. Qed.

Example larger_test_input :
  recognize_chart 64 larger_grammar "START" (chars "1+(2*3-4)") = Ok true.
Proof. by vm_compute. Qed.

(** ** Failures of [chart] *)

(** C5.  A start symbol that is not a key of the grammar makes
    [grammar[start]] raise [KeyError], the exception the specification calls
    UnknownStartSymbolError; this happens whatever the input is and with no
    step taken, so before any token is read or any state set is created. *)
Theorem chart_unknown_start (fuel : nat) (g : Grammar) (start : Symbol)
    (inp : list Symbol) :
  g !! start = None → chart fuel g start inp = Raise KeyError.
Proof. intros H. unfold chart, productions_of. by rewrite H. Qed.

Lemma chart_unknown_start_witness :
  small_grammar !! "X"%string = None
  ∧ chart 0 small_grammar "X" (chars "2+3*4") = Raise KeyError.
Proof.
  split; [by vm_compute|]. apply chart_unknown_start. by vm_compute.
Defined.

(** C3.  When the first production of the start symbol is empty, the first
    item taken from the queue is complete at dot 0 with origin 0; Complete
    then searches the state set that already holds this very item, the guard
    [pd <= len(pr)] lets it through and [pr[pd]] reads one past the end:
    [chart] raises [IndexError] on every input. *)
Theorem chart_empty_production_raises (fuel : nat) (g : Grammar)
    (start : Symbol) (rules : list Production) (inp : list Symbol) :
  (1 ≤ fuel)%nat →
  g !! start = Some ([] :: rules) →
  chart fuel g start inp = Raise IndexError.
Proof.
  intros Hfuel Hstart. unfold chart, productions_of. rewrite Hstart.
  destruct fuel as [|fuel]; [lia|].
  destruct inp as [|tok inp]; reflexivity.
Qed.

Lemma chart_empty_production_raises_witness :
  chart 1 nullable_grammar "S" [] = Raise IndexError.
Proof. apply (chart_empty_production_raises 1 _ _ []); [lia | by vm_compute]. Defined.

(** The same out-of-range read without any empty production: in
    [larger_grammar] the item [Digit -> 2 .] of origin 1 is completed against
    state set 1, which holds the complete item [Digit -> 1 .]. *)
Example chart_two_digits_raises :
  chart 64 larger_grammar "START" (chars "12") = Raise IndexError.
Proof. by vm_compute. Qed.

(** Right recursion runs into it as well. *)
Example chart_right_recursion_raises :
  chart 64 (list_to_map [("A"%string, [["x"%string; "A"%string]; ["x"%string]])])
    "A" (chars "xx") = Raise IndexError.
Proof. by vm_compute. Qed.

(** C6 fails: a nonterminal with an empty list of productions is predicted
    without any error, the build returns a chart. *)
Lemma chart_hollow_grammar_returns :
  contains hollow_grammar "A" = true
  ∧ productions_of hollow_grammar "A" = Ok []
  ∧ chart 8 hollow_grammar "S" []
    = Ok [[("S"%string, ["A"%string], 0, 0)]].
Proof. by vm_compute. Qed.

(** C6, as the code has it.  When the symbol after the dot is a key of the
    grammar whose list of productions is empty, the step raises nothing: it
    records the item in the current state set and leaves both queues as
    they are. *)
Theorem step_predict_no_productions (g : Grammar) (n : nat)
    (ch : option Symbol) (key : Symbol) (rule : Production) (dot index : Z)
    (x : Symbol) (history : list StateSet) (activeQ nextQ : list Item) :
  length history = S n →
  0 ≤ dot →
  rule !! Z.to_nat dot = Some x →
  g !! x = Some [] →
  step g (Z.of_nat n) ch (key, rule, dot, index) history activeQ nextQ
  = Ok (alter (add (key, rule, dot, index)) n history, activeQ, nextQ).
Proof.
  intros Hlen Hdot Hx Hg. unfold step, add_last.
  destruct history as [|S0 history]; [done|].
  cbn [mbind result_bind]. rewrite Hlen.
  replace (S n - 1)%nat with n by lia.
  pose proof (lookup_lt_Some _ _ _ Hx) as Hlt.
  destruct (Z.ltb_spec dot (len rule)) as [_|?]; [|unfold len in *; lia].
  replace dot with (Z.of_nat (Z.to_nat dot)) at 1 by lia.
  rewrite (getitem_lookup _ _ _ Hx). cbn [mbind result_bind].
  unfold contains. rewrite Hg, bool_decide_eq_true_2 by eauto.
  destruct (lookup_lt_is_Some_2 (alter (add (key, rule, dot, index)) n (S0 :: history)) n)
    as [seen Hseen]; [rewrite length_alter; lia|].
  rewrite (getitem_lookup _ _ _ Hseen). cbn [mbind result_bind].
  unfold predictor, productions_of. rewrite Hg. cbn.
  by rewrite app_nil_r.
Qed.

Lemma step_predict_no_productions_witness :
  step hollow_grammar 0 None ("S"%string, ["A"%string], 0, 0) [[]] [] []
  = Ok ([[("S"%string, ["A"%string], 0, 0)]], [], []).
Proof.
  apply (step_predict_no_productions hollow_grammar 0 None "S" ["A"%string]
           0 0 "A" [[]] [] []); [done | lia | done | by vm_compute].
Defined.

(** ** State sets and the three rules *)

Lemma elem_of_add (item it : Item) (s : StateSet) :
  it ∈ add item s ↔ it = item ∨ it ∈ s.
Proof.
  unfold add, mem. case_bool_decide.
  - naive_solver.
  - rewrite elem_of_app, list_elem_of_singleton. naive_solver.
Qed.

Lemma NoDup_add (item : Item) (s : StateSet) : NoDup s → NoDup (add item s).
Proof.
  intros Hs. unfold add, mem. case_bool_decide; [done|].
  apply NoDup_app. split_and!; [done| |apply NoDup_singleton].
  intros x Hx ->%list_elem_of_singleton. done.
Qed.

Lemma add_last_Ok (n : nat) (history : list StateSet) (item : Item) :
  length history = S n →
  add_last history item = Ok (alter (add item) n history).
Proof.
  intros Hlen. unfold add_last. destruct history; [done|].
  rewrite Hlen. by replace (S n - 1)%nat with n by lia.
Qed.

Lemma at_pos_alter (n j : nat) (history : list StateSet) (item it : Item) :
  length history = S n →
  at_pos (alter (add item) n history) j it
  ↔ at_pos history j it ∨ (j = n ∧ it = item).
Proof.
  intros Hlen. unfold at_pos. destruct (decide (n = j)) as [->|Hne].
  - destruct (lookup_lt_is_Some_2 history j) as [s Hs]; [lia|].
    rewrite list_lookup_alter_eq, Hs. simpl. split.
    + intros (? & [= <-] & [-> | ?]%elem_of_add); eauto.
    + intros [(? & [= <-] & ?) | [_ ->]];
        (eexists; split; [done|]); apply elem_of_add; auto.
  - rewrite list_lookup_alter_ne by done. naive_solver.
Qed.

Lemma getitem_current (n : nat) (history : list StateSet) :
  length history = S n →
  ∃ s, history !! n = Some s ∧ getitem history (Z.of_nat n) = Ok s.
Proof.
  intros Hlen. destruct (lookup_lt_is_Some_2 history n) as [s Hs]; [lia|].
  exists s. split; [done|]. by apply getitem_lookup.
Qed.

Lemma predictor_spec (g : Grammar) (x : Symbol) (seen : StateSet) (i : Z)
    (rules : list Production) :
  g !! x = Some rules →
  ∃ new, predictor x g seen i = Ok new
    ∧ (∀ production, production ∈ rules →
         (x, production, 0, i) ∈ seen ∨ (x, production, 0, i) ∈ new)
    ∧ (∀ it, it ∈ new → ∃ production, it = (x, production, 0, i)).
Proof.
  intros Hg. unfold predictor, productions_of. rewrite Hg.
  eexists. split; [done|]. split.
  - intros p Hp. destruct (decide ((x, p, 0, i) ∈ seen)); [by left|right].
    apply list_elem_of_filter. split; [done|].
    apply list_elem_of_fmap. eauto.
  - intros it (_ & (p & -> & _)%list_elem_of_fmap)%list_elem_of_filter. eauto.
Qed.

Lemma getitem_expects (key : Symbol) (rule : Production) (dot index : Z)
    (x : Symbol) :
  expects (key, rule, dot, index) x → getitem rule dot = Ok x.
Proof.
  intros [Hdot Hx]. rewrite <- (Z2Nat.id dot) by done.
  by apply getitem_lookup.
Qed.

Lemma expects_getitem (key : Symbol) (rule : Production) (dot index : Z)
    (x : Symbol) :
  0 ≤ dot → getitem rule dot = Ok x → expects (key, rule, dot, index) x.
Proof. intros Hdot [? _]%getitem_nonneg; done. Qed.

Lemma expects_inj (it : Item) (x y : Symbol) :
  expects it x → expects it y → x = y.
Proof. destruct it as [[[? ?] ?] ?]. intros [_ ?] [_ ?]. congruence. Qed.

Lemma expects_lt (key : Symbol) (rule : Production) (dot index : Z)
    (x : Symbol) :
  expects (key, rule, dot, index) x → 0 ≤ dot < len rule.
Proof.
  intros [Hdot Hx]. apply lookup_lt_Some in Hx. unfold len. lia.
Qed.

Lemma scanner_spec (key : Symbol) (rule : Production) (dot index : Z)
    (token : option Symbol) (Q Q' : list Item) :
  scanner (key, rule, dot, index) token Q = Ok Q' →
  ∃ x, getitem rule dot = Ok x
    ∧ (Q' = Q ∨ token = Some x ∧ Q' = Q ++ [(key, rule, dot + 1, index)])
    ∧ (token = Some x → (key, rule, dot + 1, index) ∈ Q').
Proof.
  unfold scanner, mem. destruct (getitem rule dot) as [x| |]; [|done..].
  cbn [mbind result_bind]. intros H. exists x. split; [done|].
  repeat case_bool_decide; simpl in H; injection H as <-.
  - split; [by left|]. done.
  - split; [right; split; [done|]; done|]. intros _.
    apply elem_of_app. right. by apply list_elem_of_singleton.
  - split; [by left|]. congruence.
  - split; [by left|]. congruence.
Qed.

(** What a successful run of [completer] has established: every searched
    item that passed the guard [pd <= len(pr)] could be indexed at its dot,
    every item waiting for [key] has its advanced copy in [seen] or in the
    result, and the result holds nothing else. *)
Lemma completer_spec (key : Symbol) (search_set seen new : StateSet) :
  completer key search_set seen = Ok new →
  (∀ pk pr pd pi, (pk, pr, pd, pi) ∈ search_set → pd ≤ len pr →
     ∃ x, getitem pr pd = Ok x)
  ∧ (∀ w, w ∈ search_set → expects w key →
       advance w ∈ seen ∨ advance w ∈ new)
  ∧ (∀ it, it ∈ new →
       ∃ pk pr pd pi, (pk, pr, pd, pi) ∈ search_set
         ∧ it = (pk, pr, pd + 1, pi) ∧ getitem pr pd = Ok key
         ∧ it ∉ seen).
Proof.
  revert new.
  induction search_set as [|[[[pk pr] pd] pi] rest IH]; intros new; simpl.
  { intros [= <-]. split_and!; intros; set_solver. }
  assert (∀ new', completer key rest seen = Ok new' →
    (∀ it, it ∈ new' → it ∈ new) →
    (pd ≤ len pr → ∃ x : Symbol, getitem pr pd = Ok x) →
    (expects (pk, pr, pd, pi) key →
       (pk, pr, pd + 1, pi) ∈ seen ∨ (pk, pr, pd + 1, pi) ∈ new) →
    (∀ it, it ∈ new → it ∈ new' ∨
       it = (pk, pr, pd + 1, pi) ∧ getitem pr pd = Ok key ∧ it ∉ seen) →
    (∀ pk0 pr0 pd0 pi0, (pk0, pr0, pd0, pi0) ∈ (pk, pr, pd, pi) :: rest →
       pd0 ≤ len pr0 → ∃ x, getitem pr0 pd0 = Ok x)
    ∧ (∀ w, w ∈ (pk, pr, pd, pi) :: rest → expects w key →
         advance w ∈ seen ∨ advance w ∈ new)
    ∧ (∀ it, it ∈ new →
         ∃ pk0 pr0 pd0 pi0, (pk0, pr0, pd0, pi0) ∈ (pk, pr, pd, pi) :: rest
           ∧ it = (pk0, pr0, pd0 + 1, pi0) ∧ getitem pr0 pd0 = Ok key
           ∧ it ∉ seen))
    as Hcase.
  { intros new' (H1 & H2 & H3)%IH Hsub Hidx Hexp Hnew. split_and!.
    - intros ???? [[= -> -> -> ->] | ?]%elem_of_cons; eauto.
    - intros w [-> | Hw]%elem_of_cons Hw'; [by apply Hexp|].
      destruct (H2 w Hw Hw'); auto.
    - intros it [Hit | (-> & Hk & Hns)]%Hnew.
      + destruct (H3 it Hit) as (?&?&?&?&?&?&?&?).
        do 4 eexists. split; [by apply elem_of_cons; right|]. done.
      + do 4 eexists. split; [by apply elem_of_cons; left|]. done. }
  destruct (Z.leb_spec pd (len pr)) as [Hle|Hgt].
  - destruct (getitem pr pd) as [x| |] eqn:Hx; [|done..].
    cbn [mbind result_bind]. unfold mem.
    case_bool_decide as Hkey; [case_bool_decide as Hseen|]; simpl.
    + subst x. intros H. eapply Hcase; eauto.
    + subst x.
      destruct (completer key rest seen) as [tl| |] eqn:Htl; [|done..].
      cbn [mbind result_bind]. intros [= <-].
      eapply Hcase; eauto.
      * intros it ?. apply elem_of_cons. by right.
      * intros _. right. apply elem_of_cons. by left.
      * intros it [-> | ?]%elem_of_cons; auto.
    + intros H. eapply Hcase; eauto.
      intros Hexp. apply getitem_expects in Hexp. congruence.
  - intros H. eapply Hcase; eauto; [lia|].
    intros Hexp%expects_lt. lia.
Qed.

(** ** The invariant is kept by every step of the worklist loop *)

Section Invariant.
Context (g : Grammar) (tokens : list (option Symbol)).

Lemma at_pos_lt (history : list StateSet) (j : nat) (it : Item) :
  at_pos history j it → (j < length history)%nat.
Proof. intros (s & Hs & _). by eapply lookup_lt_Some. Qed.

Lemma pending_mono n h a nq h' a' nq' j it :
  (∀ j it, at_pos h j it → at_pos h' j it) →
  (∀ it, it ∈ a → it ∈ a' ∨ at_pos h' n it) →
  (∀ it, it ∈ nq → it ∈ nq') →
  pending n h a nq j it → pending n h' a' nq' j it.
Proof.
  intros Hh Ha Hn [H | [[-> H] | [-> H]]].
  - left. auto.
  - destruct (Ha _ H); [right; left|left]; auto.
  - right; right. auto.
Qed.

(** The part common to the three branches: the popped item joins the
    current state set, the queues only grow, and the branch pays what the
    popped item owes. *)
Lemma Inv_step n history item activeQ nextQ activeQ' nextQ' :
  let history' := alter (add item) n history in
  Inv g tokens n history (item :: activeQ) nextQ →
  (∀ it, it ∈ activeQ → it ∈ activeQ') →
  (∀ it, it ∈ nextQ → it ∈ nextQ') →
  (∀ it, it ∈ activeQ' → wf_item n it) →
  (∀ it, it ∈ nextQ' → wf_item (S n) it) →
  (∀ x rules production,
      expects item x → g !! x = Some rules → production ∈ rules →
      pending n history' activeQ' nextQ' n (x, production, 0, Z.of_nat n)) →
  (∀ x, expects item x → g !! x = None → tokens !! n = Some (Some x) →
      pending n history' activeQ' nextQ' (S n) (advance item)) →
  (∀ key rule dot index, item = (key, rule, dot, index) → len rule ≤ dot →
      index < Z.of_nat n
      ∧ ∀ w, at_pos history' (Z.to_nat index) w → expects w key →
             pending n history' activeQ' nextQ' n (advance w)) →
  Inv g tokens n history' activeQ' nextQ'.
Proof.
  intros history' [Hlen Hnd Hwf Hact Hnext Hpred Hscan Hcomp]
    Ha Hn Hwa Hwn Hp Hs Hc.
  assert (∀ j it, at_pos history' j it
                  ↔ at_pos history j it ∨ (j = n ∧ it = item)) as Hat
    by (intros; by apply at_pos_alter).
  assert (∀ j it, pending n history (item :: activeQ) nextQ j it →
                  pending n history' activeQ' nextQ' j it) as Hmono.
  { intros j it. apply pending_mono; [| |done].
    - intros ???. apply Hat. auto.
    - intros ? [-> | ?]%elem_of_cons; [right; apply Hat|left]; auto. }
  constructor; [| | |done|done| | |].
  - unfold history'. by rewrite length_alter.
  - intros j s. unfold history'. destruct (decide (n = j)) as [->|Hne].
    + rewrite list_lookup_alter_eq.
      destruct (history !! j) as [s0|] eqn:Hs0; [|done]. intros [= <-].
      apply NoDup_add. by eapply Hnd.
    + rewrite list_lookup_alter_ne by done. apply Hnd.
  - intros j it [Hold | [-> ->]]%Hat.
    + by apply Hwf.
    + apply Hact, elem_of_cons. by left.
  - intros j it x rules p [Hold | [-> ->]]%Hat Hx Hg Hin.
    + apply Hmono. by eapply Hpred.
    + by eapply Hp.
  - intros j it x [Hold | [-> ->]]%Hat Hx Hg Htok.
    + apply Hmono. by eapply Hscan.
    + by eapply Hs.
  - intros j key rule dot index [Hold | [-> <-]]%Hat Hle.
    + destruct (Hcomp _ _ _ _ _ Hold Hle) as [Hlt Hw].
      split; [done|]. intros w Hw' Hexp. apply Hmono, Hw; [|done].
      apply Hat in Hw' as [? | [Heq _]]; [done|].
      pose proof (at_pos_lt _ _ _ Hold).
      pose proof (Hwf _ _ Hold) as [_ ?]. lia.
    + by eapply Hc.
Qed.

Lemma step_Inv n ch item history activeQ nextQ history' activeQ' nextQ' :
  tokens !! n = Some ch →
  Inv g tokens n history (item :: activeQ) nextQ →
  step g (Z.of_nat n) ch item history activeQ nextQ
  = Ok (history', activeQ', nextQ') →
  Inv g tokens n history' activeQ' nextQ'.
Proof.
  intros Htok HI.
  pose proof HI as [Hlen _ Hwf0 Hact Hnext _ _ _].
  assert (wf_item n item) as Hwf by (apply Hact, elem_of_cons; by left).
  unfold step. rewrite (add_last_Ok n) by done. cbn [mbind result_bind].
  destruct item as [[[key rule] dot] index]. destruct Hwf as [Hdot Hidx].
  set (item := (key, rule, dot, index)) in *.
  set (h1 := alter (add item) n history).
  assert (length h1 = S n) as Hlen1 by (unfold h1; by rewrite length_alter).
  destruct (getitem_current n h1 Hlen1) as (seen & Hseen & Hgseen).
  assert (∀ it, it ∈ seen ↔ at_pos h1 n it) as Hseen_at.
  { intros it. unfold at_pos. rewrite Hseen. naive_solver. }
  assert (at_pos h1 n item) as Hitem by (apply at_pos_alter; auto).
  destruct (Z.ltb_spec dot (len rule)) as [Hlt|Hge].
  - (* the dot is before a symbol *)
    destruct (getitem rule dot) as [x| |] eqn:Hx; [|done..].
    cbn [mbind result_bind].
    assert (expects item x) as Hexp by (apply expects_getitem; lia || done).
    unfold contains. case_bool_decide as Hg.
    + (* Predict *)
      destruct Hg as [rules Hg]. rewrite Hgseen. cbn [mbind result_bind].
      destruct (predictor_spec g x seen (Z.of_nat n) rules Hg)
        as (new & -> & Hall & Hnew).
      cbn [mbind result_bind]. intros [= <- <- <-].
      apply (Inv_step n history item activeQ nextQ); [done|..].
      * intros it ?. apply elem_of_app. auto.
      * done.
      * intros it [? | (p & ->)%Hnew]%elem_of_app.
        -- apply Hact, elem_of_cons. auto.
        -- pose proof (len_nonneg p). simpl. lia.
      * by apply Hnext.
      * intros x' rules' p Hx' Hg' Hp.
        assert (x' = x) as -> by by eapply expects_inj.
        assert (rules' = rules) as -> by congruence.
        destruct (Hall p Hp) as [?|?].
        -- left. by apply Hseen_at.
        -- right; left. split; [done|]. apply elem_of_app. auto.
      * intros x' Hx' Hg' _.
        assert (x' = x) as -> by by eapply expects_inj. congruence.
      * intros ???? [= <- <- <- <-] ?. lia.
    + (* Scan *)
      assert (g !! x = None) as Hnone.
      { destruct (g !! x) eqn:E; [|done]. destruct Hg. eauto. }
      destruct (scanner item ch nextQ) as [Q'| |] eqn:HQ; [|done..].
      cbn [mbind result_bind]. intros [= <- <- <-].
      apply scanner_spec in HQ as (x' & Hx' & HQ' & Hscan).
      assert (x' = x) as -> by congruence.
      apply (Inv_step n history item activeQ nextQ); [done|..].
      * done.
      * intros it ?. destruct HQ' as [-> | [_ ->]]; [done|].
        apply elem_of_app. auto.
      * intros it ?. apply Hact, elem_of_cons. auto.
      * intros it Hit.
        assert (it ∈ nextQ ∨ it = (key, rule, dot + 1, index)) as [?| ->].
        { destruct HQ' as [-> | [_ ->]]; [auto|].
          apply elem_of_app in Hit as [?| ->%list_elem_of_singleton]; auto. }
        -- by apply Hnext.
        -- simpl. lia.
      * intros x' ? ? Hx'' Hg' _.
        assert (x' = x) as -> by by eapply expects_inj. congruence.
      * intros x' Hx'' _ Htok'.
        assert (x' = x) as -> by by eapply expects_inj.
        right; right. split; [done|]. apply Hscan. congruence.
      * intros ???? [= <- <- <- <-] ?. lia.
  - (* the item is complete *)
    destruct (getitem h1 index) as [search_set| |] eqn:Hsearch; [|done..].
    cbn [mbind result_bind]. rewrite Hgseen. cbn [mbind result_bind].
    destruct (completer key search_set seen) as [new| |] eqn:Hnew; [|done..].
    cbn [mbind result_bind]. intros [= <- <- <-].
    apply getitem_nonneg in Hsearch as [Hsearch _]; [|lia].
    apply completer_spec in Hnew as (Hidx' & Hadv & Hnew).
    assert (index < Z.of_nat n) as Hlt.
    { destruct (decide (index = Z.of_nat n)) as [->|]; [|lia].
      rewrite Nat2Z.id in Hsearch.
      assert (search_set = seen) as -> by congruence.
      destruct (Hidx' key rule dot (Z.of_nat n)) as [x Hx];
        [by apply Hseen_at | lia |].
      rewrite getitem_past_end in Hx by lia. done. }
    assert (history !! Z.to_nat index = Some search_set) as Hsearch0.
    { unfold h1 in Hsearch. rewrite list_lookup_alter_ne in Hsearch by lia.
      done. }
    apply (Inv_step n history item activeQ nextQ); [done|..].
    + intros it ?. apply elem_of_app. auto.
    + done.
    + intros it [? | Hit]%elem_of_app.
      * apply Hact, elem_of_cons. auto.
      * destruct (Hnew it Hit) as (pk & pr & pd & pi & Hw & -> & Hk & _).
        assert (wf_item (Z.to_nat index) (pk, pr, pd, pi)) as [Hpd Hpi].
        { apply Hwf0. by exists search_set. }
        apply getitem_nonneg in Hk as [_ ?]; [|lia]. simpl. lia.
    + by apply Hnext.
    + intros x ? ? Hx%expects_lt. lia.
    + intros x Hx%expects_lt. lia.
    + intros ???? [= <- <- <- <-] _. split; [done|].
      intros w (s & Hs & Hw) Hexp. fold h1 in Hs.
      assert (s = search_set) as -> by congruence.
      destruct (Hadv w Hw Hexp) as [?|?].
      * left. by apply Hseen_at.
      * right; left. split; [done|]. apply elem_of_app. auto.
Qed.

Lemma drain_Inv fuel n ch history activeQ nextQ history' activeQ' nextQ' :
  tokens !! n = Some ch →
  Inv g tokens n history activeQ nextQ →
  drain fuel g (Z.of_nat n) ch history activeQ nextQ
  = Ok (history', activeQ', nextQ') →
  activeQ' = [] ∧ Inv g tokens n history' [] nextQ'.
Proof.
  intros Htok. revert history activeQ nextQ.
  induction fuel as [|fuel IH]; intros history activeQ nextQ HI;
    destruct activeQ as [|item activeQ]; simpl;
    try (by intros [= <- <- <-]); try done.
  destruct (step g (Z.of_nat n) ch item history activeQ nextQ)
    as [[[h1 a1] n1]| |] eqn:Hstep; [|done..].
  cbn [mbind result_bind]. apply IH. by eapply step_Inv.
Qed.

Lemma at_pos_snoc_empty_1 (history : list StateSet) (j : nat) (it : Item) :
  at_pos (history ++ [[]]) j it → at_pos history j it.
Proof.
  unfold at_pos. intros (s & Hs & Hit).
  apply lookup_app_Some in Hs as [? | [_ Hs]]; [eauto|].
  apply list_lookup_singleton_Some in Hs as [_ <-].
  by apply elem_of_nil in Hit.
Qed.

Lemma at_pos_snoc_empty_2 (history : list StateSet) (j : nat) (it : Item) :
  at_pos history j it → at_pos (history ++ [[]]) j it.
Proof.
  unfold at_pos. intros (s & Hs & Hit).
  exists s. split; [|done]. by apply lookup_app_l_Some.
Qed.

(** Moving on to the next position: the drained queue becomes the next
    queue, the next queue becomes the active one. *)
Lemma Inv_next_position n history nextQ :
  Inv g tokens n history [] nextQ →
  Inv g tokens (S n) (history ++ [[]]) nextQ [].
Proof.
  intros [Hlen Hnd Hwf Hact Hnext Hpred Hscan Hcomp].
  assert (∀ j it, pending n history [] nextQ j it →
                  pending (S n) (history ++ [[]]) nextQ [] j it) as Hmono.
  { intros j it [H | [[_ H] | [-> H]]].
    - left. by apply at_pos_snoc_empty_2.
    - by apply elem_of_nil in H.
    - right; left. done. }
  constructor.
  - rewrite length_app. simpl. lia.
  - intros j s [? | [_ Hs]]%lookup_app_Some; [by eapply Hnd|].
    apply list_lookup_singleton_Some in Hs as [_ <-]. apply NoDup_nil_2.
  - intros j it ?%at_pos_snoc_empty_1. by apply Hwf.
  - done.
  - intros it []%elem_of_nil.
  - intros j it x rules p ?%at_pos_snoc_empty_1 ???.
    apply Hmono. by eapply Hpred.
  - intros j it x ?%at_pos_snoc_empty_1 ???. apply Hmono. by eapply Hscan.
  - intros j key rule dot index Hold%at_pos_snoc_empty_1 Hle.
    destruct (Hcomp _ _ _ _ _ Hold Hle) as [Hlt Hw]. split; [done|].
    intros w ?%at_pos_snoc_empty_1 ?. apply Hmono. by apply Hw.
Qed.

Lemma run_Inv fuel rest n history nextQ history' activeQ' nextQ' :
  rest ≠ [] →
  (∀ k ch, rest !! k = Some ch → tokens !! (n + k)%nat = Some ch) →
  Inv g tokens n (history ++ [[]]) nextQ [] →
  run fuel g (Z.of_nat n) rest history [] nextQ
  = Ok (history', activeQ', nextQ') →
  activeQ' = []
  ∧ Inv g tokens (n + length rest - 1) history' [] nextQ'.
Proof.
  revert n history nextQ.
  induction rest as [|ch rest IH]; intros n history nextQ Hne Htok HI;
    [done|]. simpl.
  destruct (drain fuel g (Z.of_nat n) ch (history ++ [[]]) nextQ [])
    as [[[h1 a1] n1]| |] eqn:Hdrain; [|done..].
  cbn [mbind result_bind].
  apply drain_Inv in Hdrain as [-> HI1]; [| |done].
  2: { rewrite <- (Htok 0%nat ch) by done. f_equal. lia. }
  destruct rest as [|ch' rest].
  - simpl. intros [= <- <- <-]. split; [done|].
    by replace (n + 1 - 1)%nat with n by lia.
  - replace (Z.of_nat n + 1) with (Z.of_nat (S n)) by lia.
    intros Hrun. apply IH in Hrun as [-> HI2]; [| done | |].
    + split; [done|]. cbn [length] in *.
      match goal with
      | |- Inv _ _ ?a _ _ _ =>
          match type of HI2 with
          | Inv _ _ ?b _ _ _ => by replace a with b by lia
          end
      end.
    + intros k c Hk. replace (S n + k)%nat with (n + S k)%nat by lia.
      by apply Htok.
    + by apply Inv_next_position.
Qed.

End Invariant.

Lemma Inv_initial (g : Grammar) (tokens : list (option Symbol))
    (start : Symbol) (rules : list Production) :
  Inv g tokens 0 ([] ++ [[]]) ((λ rule, (start, rule, 0, 0)) <$> rules) [].
Proof.
  assert (∀ j it, ¬ at_pos ([] ++ [[]]) j it) as Hno.
  { intros j it ?%at_pos_snoc_empty_1. destruct H as (? & ? & _). done. }
  constructor; try (intros; exfalso; by eapply Hno).
  - done.
  - intros [|j] s; simpl; [|done]. intros [= <-]. apply NoDup_nil_2.
  - intros it (rule & -> & _)%list_elem_of_fmap.
    pose proof (len_nonneg rule). simpl. lia.
  - intros it []%elem_of_nil.
Qed.

(** Every chart that [chart] returns satisfies the invariant at its last
    position, with both the active queue and the lookahead exhausted. *)
Lemma chart_Inv (fuel : nat) (g : Grammar) (start : Symbol)
    (inp : list Symbol) (history : list StateSet) :
  chart fuel g start inp = Ok history →
  ∃ nextQ, Inv g ((Some <$> inp) ++ [None]) (length inp) history [] nextQ.
Proof.
  unfold chart. destruct (productions_of g start) as [rules| |]; [|done..].
  cbn [mbind result_bind].
  destruct (run fuel g 0 ((Some <$> inp) ++ [None]) [] []
              ((λ rule, (start, rule, 0, 0)) <$> rules))
    as [[[h a] n]| |] eqn:Hrun; [|done..].
  cbn [mbind result_bind]. intros [= <-].
  change 0 with (Z.of_nat 0) in Hrun.
  eapply (run_Inv g ((Some <$> inp) ++ [None])) in Hrun as [_ HI].
  - exists n. revert HI. rewrite length_app, length_fmap. simpl.
    by replace (length inp + 1 - 1)%nat with (length inp) by lia.
  - by destruct inp.
  - by intros k ch.
  - apply Inv_initial.
Qed.

Lemma at_pos_final (n : nat) (history : list StateSet) (nextQ : list Item)
    (j : nat) (it : Item) :
  length history = S n → (j ≤ n)%nat →
  pending n history [] nextQ j it → at_pos history j it.
Proof.
  intros Hlen Hj [H | [[_ H] | [-> _]]]; [done | | lia].
  by apply elem_of_nil in H.
Qed.

(** ** Properties of every chart that is returned *)

Example chart_small_grammar_2_plus :
  chart 64 small_grammar "P" (chars "2+") = Ok chart_2_plus.
Proof. by vm_compute. Qed.

(** C9.  A chart returned for an input of N tokens has exactly N + 1 state
    sets, at the indices 0 to N. *)
Theorem chart_length (fuel : nat) (g : Grammar) (start : Symbol)
    (inp : list Symbol) (history : list StateSet) :
  chart fuel g start inp = Ok history →
  length history = S (length inp)
  ∧ ∀ i : nat, is_Some (history !! i) ↔ (i ≤ length inp)%nat.
Proof.
  intros [nextQ [Hlen _ _ _ _ _ _ _]]%chart_Inv. split; [done|].
  intros i. rewrite lookup_lt_is_Some. lia.
Qed.

Lemma chart_length_witness :
  length chart_2_plus = 3%nat
  ∧ ∀ i : nat, is_Some (chart_2_plus !! i) ↔ (i ≤ 2)%nat.
Proof.
  apply (chart_length 64 small_grammar "P" (chars "2+") chart_2_plus).
  by vm_compute.
Defined.

(** C7.  No state set of a returned chart holds the same item twice. *)
Theorem chart_no_duplicates (fuel : nat) (g : Grammar) (start : Symbol)
    (inp : list Symbol) (history : list StateSet) (i : nat) (s : StateSet) :
  chart fuel g start inp = Ok history →
  history !! i = Some s →
  NoDup s.
Proof.
  intros [nextQ [_ Hnd _ _ _ _ _ _]]%chart_Inv Hs. by eapply Hnd.
Qed.

Lemma chart_no_duplicates_witness :
  NoDup [ ("T"%string, ["2"%string], 1, 0); ("M"%string, ["T"%string], 1, 0);
          ("S"%string, ["M"%string], 1, 0);
          ("M"%string, ["M"; "*"; "T"]%string, 1, 0);
          ("P"%string, ["S"%string], 1, 0);
          ("S"%string, ["S"; "+"; "M"]%string, 1, 0) ].
Proof.
  apply (chart_no_duplicates 64 small_grammar "P" (chars "2+") chart_2_plus 1).
  - by vm_compute.
  - reflexivity.
Defined.

(** C10.  Every item in the state set at position [i] of a returned chart
    has an origin between 0 and [i]. *)
Theorem chart_origin_bounds (fuel : nat) (g : Grammar) (start : Symbol)
    (inp : list Symbol) (history : list StateSet) (i : nat) (s : StateSet)
    (key : Symbol) (rule : Production) (dot index : Z) :
  chart fuel g start inp = Ok history →
  history !! i = Some s →
  (key, rule, dot, index) ∈ s →
  0 ≤ index ≤ Z.of_nat i.
Proof.
  intros [nextQ [_ _ Hwf _ _ _ _ _]]%chart_Inv Hs Hit.
  destruct (Hwf i (key, rule, dot, index)) as [_ ?]; [|done].
  by exists s.
Qed.

Lemma chart_origin_bounds_witness : 0 ≤ 2 ≤ Z.of_nat 2.
Proof.
  apply (chart_origin_bounds 64 small_grammar "P" (chars "2+") chart_2_plus 2
           (default [] (chart_2_plus !! 2%nat)) "M" ["T"%string] 0 2).
  - by vm_compute.
  - reflexivity.
  - apply (bool_decide_unpack _). by vm_compute.
Defined.

(** X7.  The dot of every item of a returned chart lies within its production,
    the invariant the data model states for items. *)
Lemma chart_dot_bounds (fuel : nat) (g : Grammar) (start : Symbol)
    (inp : list Symbol) (history : list StateSet) (i : nat) (s : StateSet)
    (key : Symbol) (rule : Production) (dot index : Z) :
  chart fuel g start inp = Ok history →
  history !! i = Some s →
  (key, rule, dot, index) ∈ s →
  0 ≤ dot ≤ len rule.
Proof.
  intros [nextQ [_ _ Hwf _ _ _ _ _]]%chart_Inv Hs Hit.
  destruct (Hwf i (key, rule, dot, index)) as [? _]; [|done].
  by exists s.
Qed.

(** C4.  Every state set of a returned chart is a fixed point of the three
    rules: what Predict and Complete derive from an item of the state set at
    [i] is in that state set, and what Scan derives from it is in the state
    set at [i + 1]. *)
Theorem chart_closed (fuel : nat) (g : Grammar) (start : Symbol)
    (inp : list Symbol) (history : list StateSet) :
  chart fuel g start inp = Ok history →
  closed g inp history.
Proof.
  intros [nextQ HI]%chart_Inv.
  destruct HI as [Hlen _ Hwf _ _ Hpred Hscan Hcomp].
  intros i it Hit. pose proof (at_pos_lt _ _ _ Hit) as Hi. split_and!.
  - intros x rules p Hx Hg Hp.
    eapply at_pos_final; [done | lia |]. by eapply Hpred.
  - intros x Hx Hg Htok.
    pose proof (lookup_lt_Some _ _ _ Htok).
    eapply at_pos_final; [done | lia |]. eapply Hscan; [done..|].
    rewrite lookup_app_l by (rewrite length_fmap; lia).
    by rewrite list_lookup_fmap, Htok.
  - intros key rule dot index w -> Hle Hidx Hw Hexp.
    destruct (Hcomp _ _ _ _ _ Hit Hle) as [_ Hall].
    eapply at_pos_final; [done | lia |]. by apply Hall.
Qed.

Lemma chart_closed_witness : closed small_grammar (chars "2+") chart_2_plus.
Proof.
  apply (chart_closed 64 small_grammar "P" (chars "2+") chart_2_plus).
  by vm_compute.
Defined.

(** ** Scan *)

(** C8.  In one step of the worklist loop, for the item [(key, rule, dot,
    index)] taken from the queue of the current position: the queue of the
    next position either stays as it is or receives exactly one item, the
    copy [(key, rule, dot + 1, index)]; it changes only in the Scan branch
    (the dot is before a symbol that is not a key of the grammar and equals
    the current token), in which the queue of the current position is left
    alone; and no state set other than the current, last one is touched.
    Predict and Complete therefore feed the current position only. *)
Theorem scan_only_crosses (g : Grammar) (i : Z) (ch : option Symbol)
    (key : Symbol) (rule : Production) (dot index : Z)
    (history : list StateSet) (activeQ nextQ : list Item)
    (history' : list StateSet) (activeQ' nextQ' : list Item) :
  step g i ch (key, rule, dot, index) history activeQ nextQ
  = Ok (history', activeQ', nextQ') →
  (nextQ' = nextQ ∨ nextQ' = nextQ ++ [(key, rule, dot + 1, index)])
  ∧ (nextQ' ≠ nextQ →
       ∃ x, dot < len rule ∧ getitem rule dot = Ok x
            ∧ contains g x = false ∧ ch = Some x ∧ activeQ' = activeQ)
  ∧ (∀ j : nat, (S j < length history)%nat → history' !! j = history !! j)
  ∧ at_pos history' (length history - 1) (key, rule, dot, index).
Proof.
  unfold step.
  destruct (add_last history (key, rule, dot, index)) as [h1| |] eqn:Hadd;
    [|done..].
  cbn [mbind result_bind].
  assert (∀ j : nat, (S j < length history)%nat → h1 !! j = history !! j)
    as Hprev.
  { intros j Hj. unfold add_last in Hadd. destruct history; [done|].
    injection Hadd as <-. apply list_lookup_alter_ne. simpl in *. lia. }
  assert (at_pos h1 (length history - 1) (key, rule, dot, index)) as Hcur.
  { unfold add_last in Hadd. destruct history as [|s0 history]; [done|].
    injection Hadd as <-. apply at_pos_alter; [simpl; lia | auto]. }
  destruct (Z.ltb_spec dot (len rule)) as [Hlt|Hge].
  - destruct (getitem rule dot) as [x| |] eqn:Hx; [|done..].
    cbn [mbind result_bind]. destruct (contains g x) eqn:Hg.
    + destruct (getitem h1 i) as [seen| |]; [|done..].
      cbn [mbind result_bind].
      destruct (predictor x g seen i) as [new| |]; [|done..].
      cbn [mbind result_bind]. intros [= <- <- <-]. split_and!; auto.
      done.
    + destruct (scanner (key, rule, dot, index) ch nextQ) as [Q'| |] eqn:HQ;
        [|done..].
      cbn [mbind result_bind]. intros [= <- <- <-].
      apply scanner_spec in HQ as (x' & Hx' & HQ' & _).
      assert (x' = x) as -> by congruence.
      split_and!; [|intros Hne; exists x|done..].
      * destruct HQ' as [-> | [_ ->]]; auto.
      * destruct HQ' as [-> | [-> _]]; [done|]. split_and!; done.
  - destruct (getitem h1 index) as [search_set| |]; [|done..].
    cbn [mbind result_bind].
    destruct (getitem h1 i) as [seen| |]; [|done..].
    cbn [mbind result_bind].
    destruct (completer key search_set seen) as [new| |]; [|done..].
    cbn [mbind result_bind]. intros [= <- <- <-]. split_and!; auto. done.
Qed.

Lemma scan_only_crosses_witness :
  [("T"%string, ["2"%string], 1, 0)] = []
  ∨ [("T"%string, ["2"%string], 1, 0)]
    = [] ++ [("T"%string, ["2"%string], 0 + 1, 0)].
Proof.
  apply (scan_only_crosses small_grammar 0 (Some "2"%string)
           "T" ["2"%string] 0 0 [[]] [] []
           [[("T"%string, ["2"%string], 0, 0)]] []
           [("T"%string, ["2"%string], 1, 0)]).
  by vm_compute.
Defined.

(** ** Which exceptions can escape *)

Lemma getitem_raises {A} (l : list A) (z : Z) (e : exn) :
  getitem l z = Raise e → e = IndexError.
Proof.
  unfold getitem.
  destruct ((0 <=? (if z <? 0 then z + len l else z))
            && ((if z <? 0 then z + len l else z) <? len l));
    [|congruence].
  destruct (l !! _); congruence.
Qed.

Lemma completer_raises (key : Symbol) (search_set seen : StateSet) (e : exn) :
  completer key search_set seen = Raise e → e = IndexError.
Proof.
  induction search_set as [|[[[pk pr] pd] pi] rest IH]; simpl; [done|].
  destruct (pd <=? len pr); [|done].
  destruct (getitem pr pd) as [x| |] eqn:Hx; cbn [mbind result_bind];
    [| intros [= <-]; by eapply getitem_raises | done].
  destruct (bool_decide (key = x) && negb (mem (pk, pr, pd + 1, pi) seen));
    [|done].
  destruct (completer key rest seen); cbn [mbind result_bind]; [done| |done].
  intros [= <-]. by apply IH.
Qed.

(** Predict is only reached for a symbol that is a key of the grammar, so
    its lookup never fails; the one exception a step can raise is the
    [IndexError] of an out-of-range read. *)
Lemma step_raises (g : Grammar) (i : Z) (ch : option Symbol) (item : Item)
    (history : list StateSet) (activeQ nextQ : list Item) (e : exn) :
  step g i ch item history activeQ nextQ = Raise e → e = IndexError.
Proof.
  unfold step, add_last. destruct item as [[[key rule] dot] index].
  destruct history as [|s0 history]; cbn [mbind result_bind]; [congruence|].
  set (h1 := alter _ _ _).
  destruct (dot <? len rule).
  - destruct (getitem rule dot) as [x| |] eqn:Hx; cbn [mbind result_bind];
      [| intros [= <-]; by eapply getitem_raises | done].
    unfold contains. case_bool_decide as Hg.
    + destruct Hg as [rules Hg].
      destruct (getitem h1 i) as [seen| |] eqn:Hs; cbn [mbind result_bind];
        [| intros [= <-]; by eapply getitem_raises | done].
      unfold predictor, productions_of. rewrite Hg. done.
    + unfold scanner. rewrite Hx. cbn [mbind result_bind].
      by destruct (_ && _).
  - destruct (getitem h1 index) as [search_set| |] eqn:Hs;
      cbn [mbind result_bind];
      [| intros [= <-]; by eapply getitem_raises | done].
    destruct (getitem h1 i) as [seen| |] eqn:Hs'; cbn [mbind result_bind];
      [| intros [= <-]; by eapply getitem_raises | done].
    destruct (completer key search_set seen) as [new| |] eqn:Hc;
      cbn [mbind result_bind]; [done| |done].
    intros [= <-]. by eapply completer_raises.
Qed.

Lemma drain_raises (fuel : nat) (g : Grammar) (i : Z) (ch : option Symbol)
    (history : list StateSet) (activeQ nextQ : list Item) (e : exn) :
  drain fuel g i ch history activeQ nextQ = Raise e → e = IndexError.
Proof.
  revert history activeQ nextQ.
  induction fuel as [|fuel IH]; intros history [|item activeQ] nextQ; simpl;
    try done.
  destruct (step g i ch item history activeQ nextQ) as [[[h a] n]| |] eqn:Hs;
    cbn [mbind result_bind]; [apply IH| |done].
  intros [= <-]. by eapply step_raises.
Qed.

Lemma run_raises (fuel : nat) (g : Grammar) (tokens : list (option Symbol))
    (i : Z) (history : list StateSet) (activeQ nextQ : list Item) (e : exn) :
  run fuel g i tokens history activeQ nextQ = Raise e → e = IndexError.
Proof.
  revert i history activeQ nextQ.
  induction tokens as [|ch tokens IH]; intros i history activeQ nextQ; simpl;
    [done|].
  destruct (drain fuel g i ch (history ++ [[]]) nextQ activeQ)
    as [[[h a] n]| |] eqn:Hd; cbn [mbind result_bind]; [apply IH| |done].
  intros [= <-]. by eapply drain_raises.
Qed.

(** The failures of [chart]: [KeyError] exactly for a start symbol that is
    not a key, otherwise only [IndexError]. *)
Lemma chart_raises (fuel : nat) (g : Grammar) (start : Symbol)
    (inp : list Symbol) (e : exn) :
  chart fuel g start inp = Raise e →
  (e = KeyError ∧ g !! start = None)
  ∨ (e = IndexError ∧ is_Some (g !! start)).
Proof.
  unfold chart, productions_of.
  destruct (g !! start) as [rules|]; cbn [mbind result_bind];
    [|intros [= <-]; by left].
  destruct (run _ _ _ _ _ _ _) as [[[h a] n]| |] eqn:Hr;
    cbn [mbind result_bind]; [done| |done].
  intros [= <-]. right. split; [by eapply run_raises | eauto].
Qed.

(** ** Termination

    A step that takes an item not yet in the current state set shrinks the
    finite stock of unseen candidates; a step that takes a stale item leaves
    the state set alone and only enqueues unseen items, so the number of
    stale queue entries drops.  The loop therefore stops for every grammar
    and input: [OutOfFuel] only ever reports a budget chosen too small. *)

Lemma getitem_fuel {A} (l : list A) (z : Z) : getitem l z ≠ OutOfFuel.
Proof.
  unfold getitem. destruct (_ && _); [|done]. by destruct (l !! _).
Qed.

Lemma completer_fuel (key : Symbol) (search_set seen : StateSet) :
  completer key search_set seen ≠ OutOfFuel.
Proof.
  induction search_set as [|[[[pk pr] pd] pi] rest IH]; simpl; [done|].
  destruct (pd <=? len pr); [|done].
  pose proof (getitem_fuel pr pd).
  destruct (getitem pr pd) as [x| |]; cbn [mbind result_bind]; [|done..].
  destruct (_ && _); [|done].
  by destruct (completer key rest seen).
Qed.

(** X4.  The defect behind the [IndexError]s: Complete cannot get past a searched
    item whose dot is at the end of its production. *)
Lemma completer_complete_item_raises (key : Symbol)
    (search_set seen : StateSet) (pk : Symbol) (pr : Production) (pi : Z) :
  (pk, pr, len pr, pi) ∈ search_set →
  completer key search_set seen = Raise IndexError.
Proof.
  intros Hin. pose proof (completer_fuel key search_set seen) as Hfuel.
  destruct (completer key search_set seen) as [new|e|] eqn:Hc; [| |done].
  - apply completer_spec in Hc as (Hidx & _ & _).
    destruct (Hidx pk pr (len pr) pi Hin) as [x Hx]; [lia|].
    by rewrite getitem_past_end in Hx by lia.
  - f_equal. by eapply completer_raises.
Qed.

Lemma step_fuel (g : Grammar) (i : Z) (ch : option Symbol) (item : Item)
    (history : list StateSet) (activeQ nextQ : list Item) :
  step g i ch item history activeQ nextQ ≠ OutOfFuel.
Proof.
  unfold step, add_last. destruct item as [[[key rule] dot] index].
  destruct history as [|s0 history]; cbn [mbind result_bind]; [done|].
  set (h1 := alter _ _ _).
  pose proof (getitem_fuel rule dot). pose proof (getitem_fuel h1 i).
  pose proof (getitem_fuel h1 index).
  destruct (dot <? len rule).
  - destruct (getitem rule dot) as [x| |] eqn:Hx; cbn [mbind result_bind];
      [|done..].
    destruct (contains g x).
    + destruct (getitem h1 i); cbn [mbind result_bind]; [|done..].
      unfold predictor, productions_of. by destruct (g !! x).
    + unfold scanner. rewrite Hx. cbn [mbind result_bind].
      by destruct (_ && _).
  - destruct (getitem h1 index); cbn [mbind result_bind]; [|done..].
    destruct (getitem h1 i); cbn [mbind result_bind]; [|done..].
    pose proof (completer_fuel key a a0).
    by destruct (completer key a a0).
Qed.

Lemma elem_of_candidates_predict (g : Grammar) (n : nat)
    (history : list StateSet) (x : Symbol) (rules : list Production)
    (production : Production) :
  g !! x = Some rules → production ∈ rules →
  (x, production, 0, Z.of_nat n) ∈ candidates g n history.
Proof.
  intros Hg Hp. apply elem_of_app. left. apply list_elem_of_bind.
  exists (x, rules). split; [|by apply elem_of_map_to_list].
  apply list_elem_of_fmap. eauto.
Qed.

Lemma elem_of_candidates_advance (g : Grammar) (n j : nat)
    (history : list StateSet) (w : Item) :
  (j < n)%nat → at_pos history j w → advance w ∈ candidates g n history.
Proof.
  intros Hj (s & Hs & Hw). apply elem_of_app. right. apply list_elem_of_bind.
  exists s. split; [by apply list_elem_of_fmap_2|].
  apply (list_elem_of_lookup_2 _ j). by rewrite lookup_take_lt.
Qed.

Lemma candidates_alter (g : Grammar) (n : nat) (history : list StateSet)
    (f : StateSet → StateSet) :
  candidates g n (alter f n history) = candidates g n history.
Proof. unfold candidates. by rewrite take_alter_ge. Qed.

Section Termination.
Context (g : Grammar) (tokens : list (option Symbol)).

(** What a successful step does to the state: the item joins the current
    state set, and the active queue receives candidates that this state set
    does not hold. *)
Lemma step_progress n ch item history activeQ nextQ history' activeQ' nextQ' :
  tokens !! n = Some ch →
  Inv g tokens n history (item :: activeQ) nextQ →
  step g (Z.of_nat n) ch item history activeQ nextQ
  = Ok (history', activeQ', nextQ') →
  history' = alter (add item) n history
  ∧ ∃ new, activeQ' = activeQ ++ new
      ∧ ∀ it, it ∈ new →
          it ∈ candidates g n history ∧ ¬ at_pos history' n it.
Proof.
  intros Htok HI Hstep.
  pose proof (step_Inv g tokens _ _ _ _ _ _ _ _ _ Htok HI Hstep) as HI'.
  pose proof HI as [Hlen _ Hwf0 Hact _ _ _ _].
  assert (wf_item n item) as Hwf by (apply Hact, elem_of_cons; by left).
  revert Hstep HI'.
  unfold step. rewrite (add_last_Ok n) by done. cbn [mbind result_bind].
  destruct item as [[[key rule] dot] index]. destruct Hwf as [Hdot Hidx].
  set (item := (key, rule, dot, index)) in *.
  set (h1 := alter (add item) n history).
  assert (length h1 = S n) as Hlen1 by (unfold h1; by rewrite length_alter).
  destruct (getitem_current n h1 Hlen1) as (seen & Hseen & Hgseen).
  assert (∀ it, it ∈ seen ↔ at_pos h1 n it) as Hseen_at.
  { intros it. unfold at_pos. rewrite Hseen. naive_solver. }
  assert (at_pos h1 n item) as Hitem by (apply at_pos_alter; auto).
  destruct (Z.ltb_spec dot (len rule)) as [Hlt|Hge].
  - destruct (getitem rule dot) as [x| |] eqn:Hx; [|done..].
    cbn [mbind result_bind]. unfold contains. case_bool_decide as Hg.
    + destruct Hg as [rules Hg]. rewrite Hgseen. cbn [mbind result_bind].
      unfold predictor, productions_of. rewrite Hg.
      cbn [mbind result_bind]. intros [= <- <- <-] _. split; [done|].
      eexists. split; [done|].
      intros it [Hns (p & -> & Hp)%list_elem_of_fmap]%list_elem_of_filter.
      split; [by eapply elem_of_candidates_predict|]. by rewrite <- Hseen_at.
    + destruct (scanner item ch nextQ) as [Q'| |]; [|done..].
      cbn [mbind result_bind]. intros [= <- <- <-] _. split; [done|].
      exists []. split; [by rewrite app_nil_r|]. by intros it ?%elem_of_nil.
  - destruct (getitem h1 index) as [search_set| |] eqn:Hsearch; [|done..].
    cbn [mbind result_bind]. rewrite Hgseen. cbn [mbind result_bind].
    destruct (completer key search_set seen) as [new| |] eqn:Hnew; [|done..].
    cbn [mbind result_bind]. intros [= <- <- <-] HI'. split; [done|].
    exists new. split; [done|]. intros it Hit.
    apply getitem_nonneg in Hsearch as [Hsearch _]; [|lia].
    apply completer_spec in Hnew as (_ & _ & Hnew).
    destruct (Hnew it Hit) as (pk & pr & pd & pi & Hw & -> & _ & Hns).
    destruct (inv_complete _ _ _ _ _ _ HI' n key rule dot index) as [Hlt' _];
      [done | lia |].
    split; [|by rewrite <- Hseen_at].
    apply (elem_of_candidates_advance g n (Z.to_nat index) history
             (pk, pr, pd, pi)); [lia|].
    exists search_set. split; [|done].
    unfold h1 in Hsearch. by rewrite list_lookup_alter_ne in Hsearch by lia.
Qed.

Lemma stale_fresh (seen : StateSet) (Q new : list Item) :
  (∀ it, it ∈ new → it ∉ seen) → stale seen (Q ++ new) = stale seen Q.
Proof.
  intros Hnew. unfold stale. rewrite filter_app, length_app.
  replace (filter (λ it, it ∈ seen) new) with (@nil Item); [simpl; lia|].
  symmetry. induction new as [|it new IH]; [done|].
  rewrite filter_cons_False; [apply IH|].
  - intros ??. apply Hnew, elem_of_cons. auto.
  - apply Hnew, elem_of_cons. auto.
Qed.

Lemma unseen_add (U : gset Item) (seen : StateSet) (item : Item) :
  item ∈ U → item ∉ seen →
  (unseen U (add item seen) < unseen U seen)%nat.
Proof.
  intros HU Hns. unfold unseen. apply subset_size. split.
  - intros it [? Hit]%elem_of_difference. apply elem_of_difference.
    split; [done|]. rewrite elem_of_list_to_set in *.
    intros ?. apply Hit, elem_of_add. auto.
  - intros Hsub. specialize (Hsub item).
    rewrite !elem_of_difference, !elem_of_list_to_set in Hsub.
    destruct Hsub as [_ Hno]; [done|]. apply Hno, elem_of_add. auto.
Qed.

Lemma drain_terminates_aux (U : gset Item) n ch :
  tokens !! n = Some ch →
  ∀ (m s : nat) history activeQ nextQ seen,
    Inv g tokens n history activeQ nextQ →
    history !! n = Some seen →
    (∀ it, it ∈ candidates g n history → it ∈ U) →
    (∀ it, it ∈ activeQ → it ∈ U) →
    (unseen U seen ≤ m)%nat →
    (stale seen activeQ ≤ s)%nat →
    ∃ fuel, drain fuel g (Z.of_nat n) ch history activeQ nextQ ≠ OutOfFuel.
Proof.
  intros Htok m. induction m as [m IHm] using lt_wf_ind.
  intros s. induction s as [s IHs] using lt_wf_ind.
  intros history [|item activeQ] nextQ seen HI Hseen HU HQ Hm Hs.
  { by exists 0%nat. }
  pose proof (step_fuel g (Z.of_nat n) ch item history activeQ nextQ).
  destruct (step g (Z.of_nat n) ch item history activeQ nextQ)
    as [[[h1 a1] n1]| |] eqn:Hstep; [|exists 1%nat; simpl; by rewrite Hstep|done].
  pose proof (step_Inv g tokens _ _ _ _ _ _ _ _ _ Htok HI Hstep) as HI1.
  destruct (step_progress _ _ _ _ _ _ _ _ _ Htok HI Hstep)
    as (-> & new & -> & Hnew).
  assert (alter (add item) n history !! n = Some (add item seen)) as Hseen1.
  { by rewrite list_lookup_alter_eq, Hseen. }
  assert (∀ it, it ∈ new → it ∉ add item seen) as Hfresh.
  { intros it Hit Hin. destruct (Hnew it Hit) as [_ Hno]. apply Hno.
    by exists (add item seen). }
  assert (∃ fuel, drain fuel g (Z.of_nat n) ch (alter (add item) n history)
                    (activeQ ++ new) n1 ≠ OutOfFuel) as [fuel Hfuel].
  { destruct (decide (item ∈ seen)) as [Hin|Hout].
    - assert (add item seen = seen) as Hadd.
      { unfold add, mem. by rewrite bool_decide_eq_true_2. }
      rewrite Hadd in *.
      unfold stale in Hs. rewrite filter_cons_True in Hs by done.
      simpl in Hs.
      apply (IHs (stale seen (activeQ ++ new))) with (seen := seen);
        try done.
      + rewrite stale_fresh by done. unfold stale. lia.
      + intros it. rewrite candidates_alter. apply HU.
      + intros it [? | Hit]%elem_of_app.
        * apply HQ, elem_of_cons. auto.
        * apply HU. by apply Hnew.
    - assert (unseen U (add item seen) < unseen U seen)%nat.
      { apply unseen_add; [|done]. apply HQ, elem_of_cons. auto. }
      apply (IHm (unseen U (add item seen)))
        with (s := stale (add item seen) (activeQ ++ new))
             (seen := add item seen); try done; try lia.
      + intros it. rewrite candidates_alter. apply HU.
      + intros it [? | Hit]%elem_of_app.
        * apply HQ, elem_of_cons. auto.
        * apply HU. by apply Hnew. }
  exists (S fuel). simpl. by rewrite Hstep.
Qed.

Lemma drain_terminates n ch history activeQ nextQ :
  tokens !! n = Some ch →
  Inv g tokens n history activeQ nextQ →
  ∃ fuel, drain fuel g (Z.of_nat n) ch history activeQ nextQ ≠ OutOfFuel.
Proof.
  intros Htok HI.
  destruct (lookup_lt_is_Some_2 history n) as [seen Hseen].
  { rewrite (inv_length _ _ _ _ _ _ HI). lia. }
  eapply (drain_terminates_aux
            (list_to_set (candidates g n history ++ activeQ))); try done.
  - intros it ?. apply elem_of_list_to_set, elem_of_app. auto.
  - intros it ?. apply elem_of_list_to_set, elem_of_app. auto.
Qed.

Lemma run_terminates rest n history nextQ :
  (∀ k ch, rest !! k = Some ch → tokens !! (n + k)%nat = Some ch) →
  Inv g tokens n (history ++ [[]]) nextQ [] →
  ∃ fuel, run fuel g (Z.of_nat n) rest history [] nextQ ≠ OutOfFuel.
Proof.
  revert n history nextQ.
  induction rest as [|ch rest IH]; intros n history nextQ Htok HI.
  { by exists 0%nat. }
  assert (tokens !! n = Some ch) as Hch.
  { rewrite <- (Htok 0%nat ch) by done. f_equal. lia. }
  destruct (drain_terminates n ch _ _ _ Hch HI) as [fuel1 Hfuel1].
  destruct (drain fuel1 g (Z.of_nat n) ch (history ++ [[]]) nextQ [])
    as [[[h1 a1] n1]| |] eqn:Hdrain; [| |done].
  - pose proof Hdrain as Hdrain'.
    apply (drain_Inv g tokens) in Hdrain' as [-> HI1]; [|done..].
    destruct (IH (S n) h1 n1) as [fuel2 Hfuel2].
    { intros k c Hk. replace (S n + k)%nat with (n + S k)%nat by lia.
      by apply Htok. }
    { by apply Inv_next_position. }
    exists (fuel1 + fuel2)%nat. simpl.
    rewrite drain_more, Hdrain by (by rewrite Hdrain).
    cbn [mbind result_bind].
    replace (Z.of_nat n + 1) with (Z.of_nat (S n)) by lia.
    replace (fuel1 + fuel2)%nat with (fuel2 + fuel1)%nat by lia.
    by rewrite run_more.
  - exists fuel1. simpl. by rewrite Hdrain.
Qed.

End Termination.

(** [chart] is total: for every grammar, start symbol and input some budget
    is enough, and every larger budget gives the same chart or the same
    exception. *)
Lemma chart_terminates (g : Grammar) (start : Symbol) (inp : list Symbol) :
  ∃ fuel, chart fuel g start inp ≠ OutOfFuel
    ∧ ∀ fuel', (fuel ≤ fuel')%nat →
        chart fuel' g start inp = chart fuel g start inp.
Proof.
  assert (∃ fuel, chart fuel g start inp ≠ OutOfFuel) as [fuel Hfuel].
  { unfold chart. destruct (productions_of g start) as [rules| |] eqn:Hp;
      cbn [mbind result_bind]; [|by exists 0%nat|].
    - destruct (run_terminates g ((Some <$> inp) ++ [None])
                  ((Some <$> inp) ++ [None]) 0 []
                  ((λ rule, (start, rule, 0, 0)) <$> rules))
        as [fuel Hfuel]; [done | apply Inv_initial |].
      exists fuel. change (Z.of_nat 0) with 0 in Hfuel.
      by destruct (run _ _ _ _ _ _ _) as [[[h a] n]| |].
    - unfold productions_of in Hp. by destruct (g !! start). }
  exists fuel. split; [done|]. intros fuel' Hle. by apply chart_more.
Qed.

(** The three ways a build can end. *)
Lemma chart_outcomes (g : Grammar) (start : Symbol) (inp : list Symbol) :
  ∃ fuel,
    (∃ history, chart fuel g start inp = Ok history)
    ∨ (chart fuel g start inp = Raise KeyError ∧ g !! start = None)
    ∨ (chart fuel g start inp = Raise IndexError ∧ is_Some (g !! start)).
Proof.
  destruct (chart_terminates g start inp) as (fuel & Hfuel & _).
  exists fuel. destruct (chart fuel g start inp) as [h|e|] eqn:Hc; [|..|done].
  - left. eauto.
  - right. apply chart_raises in Hc as [[-> ?] | [-> ?]]; auto.
Qed.

(** In a chart that is returned, no completed item has the position it sits
    at as its origin: completing such an item reads past the end of its own
    production. *)
Lemma chart_complete_origin (fuel : nat) (g : Grammar) (start : Symbol)
    (inp : list Symbol) (history : list StateSet) (i : nat) (s : StateSet)
    (key : Symbol) (rule : Production) (dot index : Z) :
  chart fuel g start inp = Ok history →
  history !! i = Some s →
  (key, rule, dot, index) ∈ s →
  len rule ≤ dot →
  index < Z.of_nat i.
Proof.
  intros [nextQ [_ _ _ _ _ _ _ Hcomp]]%chart_Inv Hs Hit Hle.
  destruct (Hcomp i key rule dot index) as [? _]; [by exists s|done..].
Qed.

(** ** Where the items of a step come from *)

(** The three ways a step on a well-formed item can succeed. *)
Lemma step_Ok_cases (g : Grammar) (n : nat) (ch : option Symbol)
    (key : Symbol) (rule : Production) (dot index : Z)
    (history : list StateSet) (activeQ nextQ : list Item)
    (history' : list StateSet) (activeQ' nextQ' : list Item) :
  length history = S n → 0 ≤ dot →  0 ≤ index →
  step g (Z.of_nat n) ch (key, rule, dot, index) history activeQ nextQ
  = Ok (history', activeQ', nextQ') →
  ∃ seen,
    history' = alter (add (key, rule, dot, index)) n history
    ∧ history' !! n = Some seen
    ∧ ((∃ x rules,
          expects (key, rule, dot, index) x ∧ g !! x = Some rules
          ∧ nextQ' = nextQ
          ∧ activeQ' = activeQ ++
              filter (λ it, it ∉ seen)
                ((λ production : Production,
                    (x, production, 0, Z.of_nat n)) <$> rules))
       ∨ (∃ x,
            expects (key, rule, dot, index) x ∧ g !! x = None
            ∧ activeQ' = activeQ
            ∧ (nextQ' = nextQ
               ∨ ch = Some x ∧ nextQ' = nextQ ++ [(key, rule, dot + 1, index)]))
       ∨ (len rule ≤ dot ∧ nextQ' = nextQ
          ∧ ∃ search_set new,
              history' !! Z.to_nat index = Some search_set
              ∧ completer key search_set seen = Ok new
              ∧ activeQ' = activeQ ++ new)).
Proof.
  intros Hlen Hdot Hidx. unfold step. rewrite (add_last_Ok n) by done.
  cbn [mbind result_bind].
  set (item := (key, rule, dot, index)) in *.
  set (h1 := alter (add item) n history).
  assert (length h1 = S n) as Hlen1 by (unfold h1; by rewrite length_alter).
  destruct (getitem_current n h1 Hlen1) as (seen & Hseen & Hgseen).
  destruct (Z.ltb_spec dot (len rule)) as [Hlt|Hge].
  - destruct (getitem rule dot) as [x| |] eqn:Hx; [|done..].
    cbn [mbind result_bind].
    assert (expects item x) as Hexp by (by apply expects_getitem).
    unfold contains. case_bool_decide as Hg.
    + destruct Hg as [rules Hg]. rewrite Hgseen. cbn [mbind result_bind].
      unfold predictor, productions_of. rewrite Hg.
      cbn [mbind result_bind]. intros [= <- <- <-].
      exists seen. split_and!; [done..|]. left. by exists x, rules.
    + assert (g !! x = None) as Hnone.
      { destruct (g !! x) eqn:E; [|done]. destruct Hg. eauto. }
      destruct (scanner item ch nextQ) as [Q'| |] eqn:HQ; [|done..].
      cbn [mbind result_bind]. intros [= <- <- <-].
      apply scanner_spec in HQ as (x' & Hx' & HQ' & _).
      assert (x' = x) as -> by congruence.
      exists seen. split_and!; [done..|]. right; left. by exists x.
  - destruct (getitem h1 index) as [search_set| |] eqn:Hsearch; [|done..].
    cbn [mbind result_bind]. rewrite Hgseen. cbn [mbind result_bind].
    destruct (completer key search_set seen) as [new| |] eqn:Hnew; [|done..].
    cbn [mbind result_bind]. intros [= <- <- <-].
    apply getitem_nonneg in Hsearch as [Hsearch _]; [|done].
    exists seen. split_and!; [done..|]. right; right.
    split_and!; [done..|]. by exists search_set, new.
Qed.

Section Provenance.
Context (g : Grammar) (tokens : list (option Symbol)).

(** Whatever is in a state set or in a queue after a step was there before
    the step, or is what Predict, Scan or Complete makes of the item the
    step has taken. *)
Lemma step_pending_inv n ch item history activeQ nextQ
    history' activeQ' nextQ' j it :
  tokens !! n = Some ch →
  Inv g tokens n history (item :: activeQ) nextQ →
  step g (Z.of_nat n) ch item history activeQ nextQ
  = Ok (history', activeQ', nextQ') →
  pending n history' activeQ' nextQ' j it →
  pending n history (item :: activeQ) nextQ j it
  ∨ (j = n ∧ ∃ x rules production,
       expects item x ∧ g !! x = Some rules ∧ production ∈ rules
       ∧ it = (x, production, 0, Z.of_nat n))
  ∨ (j = S n ∧ ∃ x,
       expects item x ∧ g !! x = None ∧ tokens !! n = Some (Some x)
       ∧ it = advance item)
  ∨ (j = n ∧ ∃ key rule dot index w,
       item = (key, rule, dot, index) ∧ len rule ≤ dot
       ∧ index < Z.of_nat n ∧ at_pos history (Z.to_nat index) w
       ∧ expects w key ∧ it = advance w).
Proof.
  intros Htok HI Hstep Hpend.
  pose proof (step_Inv g tokens _ _ _ _ _ _ _ _ _ Htok HI Hstep) as HI'.
  pose proof HI as [Hlen _ Hwf0 Hact _ _ _ _].
  assert (wf_item n item) as Hwf by (apply Hact, elem_of_cons; by left).
  destruct item as [[[key rule] dot] index]. destruct Hwf as [Hdot Hidx].
  apply step_Ok_cases in Hstep as (seen & -> & Hseen & Hcases);
    [|done|lia..].
  assert (∀ it', at_pos (alter (add (key, rule, dot, index)) n history) j it' →
                 pending n history ((key, rule, dot, index) :: activeQ) nextQ
                   j it') as Hold.
  { intros it' [? | [-> ->]]%at_pos_alter; [by left| |done].
    right; left. split; [done|]. apply elem_of_cons. by left. }
  assert (∀ it', it' ∈ activeQ →
                 pending n history ((key, rule, dot, index) :: activeQ) nextQ
                   n it') as Hq.
  { intros it' ?. right; left. split; [done|]. apply elem_of_cons. auto. }
  destruct Hcases as [(x & rules & Hexp & Hg & -> & ->)
                     | [(x & Hexp & Hg & -> & Hn)
                       | (Hle & -> & search_set & new & Hsearch & Hnew & ->)]].
  - destruct Hpend as [H | [[-> H] | [-> H]]]; [by left; apply Hold| |].
    + apply elem_of_app in H as [H | H]; [by left; apply Hq|].
      apply list_elem_of_filter in H as [_ (p & -> & Hp)%list_elem_of_fmap].
      right; left. split; [done|]. by exists x, rules, p.
    + left. right; right. done.
  - destruct Hpend as [H | [[-> H] | [-> H]]]; [by left; apply Hold| |].
    + left. by apply Hq.
    + destruct Hn as [-> | [-> ->]]; [left; right; right; done|].
      apply elem_of_app in H as [H | ->%list_elem_of_singleton].
      * left. right; right. done.
      * right; right; left. split; [done|]. exists x.
        split_and!; [done..| |done]. by rewrite Htok.
  - destruct Hpend as [H | [[-> H] | [-> H]]]; [by left; apply Hold| |].
    + apply elem_of_app in H as [H | H]; [by left; apply Hq|].
      apply completer_spec in Hnew as (_ & _ & Hnew).
      destruct (Hnew it H) as (pk & pr & pd & pi & Hw & -> & Hk & _).
      destruct (inv_complete _ _ _ _ _ _ HI' n key rule dot index)
        as [Hlt _]; [by apply at_pos_alter; auto | done |].
      rewrite list_lookup_alter_ne in Hsearch by lia.
      assert (wf_item (Z.to_nat index) (pk, pr, pd, pi)) as [Hpd _].
      { apply Hwf0. by exists search_set. }
      right; right; right. split; [done|].
      exists key, rule, dot, index, (pk, pr, pd, pi).
      split_and!; [done..| by exists search_set | | done].
      apply expects_getitem; [lia | done].
    + left. right; right. done.
Qed.

(** Rule induction over a build: a property of positions and items that
    holds for the seeds and is passed on by Predict, Scan and Complete holds
    for everything in the state sets and the queues. *)
Section RuleInduction.
Context (start : Symbol) (P : nat → Item → Prop).
Hypothesis P_predict : ∀ n it x rules production,
  wf_item n it → P n it → expects it x →
  g !! x = Some rules → production ∈ rules →
  P n (x, production, 0, Z.of_nat n).
Hypothesis P_scan : ∀ n it x,
  wf_item n it → P n it → expects it x →
  g !! x = None → tokens !! n = Some (Some x) →
  P (S n) (advance it).
Hypothesis P_complete : ∀ n key rule dot index w,
  wf_item n (key, rule, dot, index) → P n (key, rule, dot, index) →
  len rule ≤ dot → index < Z.of_nat n →
  wf_item (Z.to_nat index) w → P (Z.to_nat index) w → expects w key →
  P n (advance w).

Lemma step_all_pending n ch item history activeQ nextQ
    history' activeQ' nextQ' :
  tokens !! n = Some ch →
  Inv g tokens n history (item :: activeQ) nextQ →
  all_pending P n history (item :: activeQ) nextQ →
  step g (Z.of_nat n) ch item history activeQ nextQ
  = Ok (history', activeQ', nextQ') →
  all_pending P n history' activeQ' nextQ'.
Proof.
  intros Htok HI HP Hstep j it Hpend.
  pose proof HI as [_ _ Hwf0 Hact _ _ _ _].
  assert (wf_item n item) as Hwf by (apply Hact, elem_of_cons; by left).
  assert (P n item) as HPitem.
  { apply HP. right; left. split; [done|]. apply elem_of_cons. by left. }
  destruct (step_pending_inv _ _ _ _ _ _ _ _ _ _ _ Htok HI Hstep Hpend)
    as [H | [(-> & x & rules & p & Hexp & Hg & Hp & ->)
            | [(-> & x & Hexp & Hg & Htok' & ->)
              | (-> & key & rule & dot & index & w & -> & Hle & Hlt & Hw
                 & Hexp & ->)]]].
  - by apply HP.
  - by eapply P_predict.
  - by eapply P_scan.
  - eapply P_complete; try done.
    + by apply Hwf0.
    + apply HP. by left.
Qed.

Lemma drain_all_pending fuel n ch history activeQ nextQ
    history' activeQ' nextQ' :
  tokens !! n = Some ch →
  Inv g tokens n history activeQ nextQ →
  all_pending P n history activeQ nextQ →
  drain fuel g (Z.of_nat n) ch history activeQ nextQ
  = Ok (history', activeQ', nextQ') →
  all_pending P n history' activeQ' nextQ'.
Proof.
  intros Htok. revert history activeQ nextQ.
  induction fuel as [|fuel IH]; intros history activeQ nextQ HI HP;
    destruct activeQ as [|item activeQ]; simpl;
    try (by intros [= <- <- <-]); try done.
  destruct (step g (Z.of_nat n) ch item history activeQ nextQ)
    as [[[h1 a1] n1]| |] eqn:Hstep; [|done..].
  cbn [mbind result_bind]. apply IH.
  - by eapply step_Inv.
  - by eapply step_all_pending.
Qed.

Lemma all_pending_next_position n history nextQ :
  all_pending P n history [] nextQ →
  all_pending P (S n) (history ++ [[]]) nextQ [].
Proof.
  intros HP j it [H | [[-> H] | [-> H]]].
  - apply HP. left. by apply at_pos_snoc_empty_1.
  - apply HP. right; right. done.
  - by apply elem_of_nil in H.
Qed.

Lemma run_all_pending fuel rest n history nextQ history' activeQ' nextQ' :
  rest ≠ [] →
  (∀ k ch, rest !! k = Some ch → tokens !! (n + k)%nat = Some ch) →
  Inv g tokens n (history ++ [[]]) nextQ [] →
  all_pending P n (history ++ [[]]) nextQ [] →
  run fuel g (Z.of_nat n) rest history [] nextQ
  = Ok (history', activeQ', nextQ') →
  all_pending P (n + length rest - 1) history' [] nextQ'.
Proof.
  revert n history nextQ.
  induction rest as [|ch rest IH]; intros n history nextQ Hne Htok HI HP;
    [done|]. simpl.
  destruct (drain fuel g (Z.of_nat n) ch (history ++ [[]]) nextQ [])
    as [[[h1 a1] n1]| |] eqn:Hdrain; [|done..].
  cbn [mbind result_bind].
  assert (tokens !! n = Some ch) as Hch.
  { rewrite <- (Htok 0%nat ch) by done. f_equal. lia. }
  pose proof (drain_all_pending _ _ _ _ _ _ _ _ _ Hch HI HP Hdrain) as HP1.
  apply (drain_Inv g tokens) in Hdrain as [-> HI1]; [|done..].
  destruct rest as [|ch' rest].
  - simpl. intros [= <- <- <-].
    by replace (n + 1 - 1)%nat with n by lia.
  - replace (Z.of_nat n + 1) with (Z.of_nat (S n)) by lia.
    intros Hrun. apply IH in Hrun; [| done | | |].
    + cbn [length] in *.
      match goal with
      | |- all_pending _ ?a _ _ _ =>
          match type of Hrun with
          | all_pending _ ?b _ _ _ => by replace a with b by lia
          end
      end.
    + intros k c Hk. replace (S n + k)%nat with (n + S k)%nat by lia.
      by apply Htok.
    + by apply Inv_next_position.
    + by apply all_pending_next_position.
Qed.

End RuleInduction.
End Provenance.

Lemma tokens_lookup_Some (inp : list Symbol) (n : nat) (x : Symbol) :
  ((Some <$> inp) ++ [None]) !! n = Some (Some x) ↔ inp !! n = Some x.
Proof.
  split.
  - intros [H | [_ H]]%lookup_app_Some.
    + rewrite list_lookup_fmap in H.
      destruct (inp !! n) as [y|]; simpl in H; congruence.
    + by apply list_lookup_singleton_Some in H as [_ ?].
  - intros H. apply lookup_app_l_Some. by rewrite list_lookup_fmap, H.
Qed.

(** Rule induction for the charts [chart] returns. *)
Lemma chart_rule_induction (g : Grammar) (inp : list Symbol) (start : Symbol)
    (P : nat → Item → Prop) :
  (∀ rules rule, g !! start = Some rules → rule ∈ rules →
     P 0%nat (start, rule, 0, 0)) →
  (∀ n it x rules production,
     wf_item n it → P n it → expects it x →
     g !! x = Some rules → production ∈ rules →
     P n (x, production, 0, Z.of_nat n)) →
  (∀ n it x,
     wf_item n it → P n it → expects it x →
     g !! x = None → inp !! n = Some x →
     P (S n) (advance it)) →
  (∀ n key rule dot index w,
     wf_item n (key, rule, dot, index) → P n (key, rule, dot, index) →
     len rule ≤ dot → index < Z.of_nat n →
     wf_item (Z.to_nat index) w → P (Z.to_nat index) w → expects w key →
     P n (advance w)) →
  ∀ fuel history i s it,
    chart fuel g start inp = Ok history →
    history !! i = Some s → it ∈ s → P i it.
Proof.
  intros Hseed Hpredict Hscan Hcomplete fuel history i s it Hchart Hs Hit.
  revert Hchart. unfold chart, productions_of.
  destruct (g !! start) as [rules|] eqn:Hstart; [|done].
  cbn [mbind result_bind].
  destruct (run fuel g 0 ((Some <$> inp) ++ [None]) [] []
              ((λ rule, (start, rule, 0, 0)) <$> rules))
    as [[[h a] n]| |] eqn:Hrun; [|done..].
  cbn [mbind result_bind]. intros [= ->].
  change 0 with (Z.of_nat 0) in Hrun.
  eapply (run_all_pending g ((Some <$> inp) ++ [None]) P) in Hrun.
  - apply Hrun. left. by exists s.
  - done.
  - intros n0 it0 x ? ? ? ? Hx. apply (Hscan n0 it0 x); try done.
    by apply tokens_lookup_Some.
  - done.
  - by destruct inp.
  - by intros k ch.
  - apply Inv_initial.
  - intros j it' [H | [[-> H] | [-> H]]].
    + apply at_pos_snoc_empty_1 in H as (? & ? & _). done.
    + apply list_elem_of_fmap in H as (rule & -> & Hrule). by eapply Hseed.
    + by apply elem_of_nil in H.
Qed.

(** ** The chart is exactly what the rules generate *)

Lemma step_pending_kept (g : Grammar) (tokens : list (option Symbol))
    n ch item history activeQ nextQ history' activeQ' nextQ' j it :
  Inv g tokens n history (item :: activeQ) nextQ →
  step g (Z.of_nat n) ch item history activeQ nextQ
  = Ok (history', activeQ', nextQ') →
  pending n history (item :: activeQ) nextQ j it →
  pending n history' activeQ' nextQ' j it.
Proof.
  intros HI Hstep. pose proof HI as [Hlen _ _ Hact _ _ _ _].
  assert (wf_item n item) as Hwf by (apply Hact, elem_of_cons; by left).
  destruct item as [[[key rule] dot] index]. destruct Hwf as [Hdot Hidx].
  apply step_Ok_cases in Hstep as (seen & -> & Hseen & Hcases);
    [|done|lia..].
  assert (∀ l, (∀ x, x ∈ activeQ → x ∈ activeQ ++ l)) as Happ.
  { intros l x ?. apply elem_of_app. auto. }
  apply pending_mono.
  - intros ???. apply at_pos_alter; auto.
  - intros x [-> | Hx]%elem_of_cons; [right; apply at_pos_alter; auto|].
    left.
    destruct Hcases as [(? & ? & _ & _ & _ & ->)
                       | [(? & _ & _ & -> & _) | (_ & _ & ? & ? & _ & _ & ->)]];
      auto.
  - intros x Hx.
    destruct Hcases as [(? & ? & _ & _ & -> & _)
                       | [(? & _ & _ & _ & [-> | [_ ->]]) | (_ & -> & _)]];
      auto.
    apply elem_of_app. auto.
Qed.

Lemma drain_pending_kept (g : Grammar) (tokens : list (option Symbol))
    fuel n ch history activeQ nextQ history' activeQ' nextQ' j it :
  tokens !! n = Some ch →
  Inv g tokens n history activeQ nextQ →
  drain fuel g (Z.of_nat n) ch history activeQ nextQ
  = Ok (history', activeQ', nextQ') →
  pending n history activeQ nextQ j it →
  pending n history' activeQ' nextQ' j it.
Proof.
  intros Htok. revert history activeQ nextQ.
  induction fuel as [|fuel IH]; intros history activeQ nextQ HI;
    destruct activeQ as [|item activeQ]; simpl;
    try (by intros [= <- <- <-]); try done.
  destruct (step g (Z.of_nat n) ch item history activeQ nextQ)
    as [[[h1 a1] n1]| |] eqn:Hstep; [|done..].
  cbn [mbind result_bind]. intros Hdrain Hpend.
  eapply IH; [by eapply step_Inv | done |]. by eapply step_pending_kept.
Qed.

Lemma run_pending_kept (g : Grammar) (tokens : list (option Symbol))
    fuel rest n history nextQ history' activeQ' nextQ' j it :
  rest ≠ [] →
  (∀ k ch, rest !! k = Some ch → tokens !! (n + k)%nat = Some ch) →
  Inv g tokens n (history ++ [[]]) nextQ [] →
  run fuel g (Z.of_nat n) rest history [] nextQ
  = Ok (history', activeQ', nextQ') →
  pending n (history ++ [[]]) nextQ [] j it →
  pending (n + length rest - 1) history' [] nextQ' j it.
Proof.
  revert n history nextQ.
  induction rest as [|ch rest IH]; intros n history nextQ Hne Htok HI;
    [done|]. simpl.
  destruct (drain fuel g (Z.of_nat n) ch (history ++ [[]]) nextQ [])
    as [[[h1 a1] n1]| |] eqn:Hdrain; [|done..].
  cbn [mbind result_bind].
  assert (tokens !! n = Some ch) as Hch.
  { rewrite <- (Htok 0%nat ch) by done. f_equal. lia. }
  intros Hrun Hpend.
  pose proof (drain_pending_kept _ _ _ _ _ _ _ _ _ _ _ j it Hch HI Hdrain Hpend)
    as Hpend1.
  apply (drain_Inv g tokens) in Hdrain as [-> HI1]; [|done..].
  destruct rest as [|ch' rest].
  - simpl in Hrun. injection Hrun as <- <- <-. simpl.
    by replace (n + 1 - 1)%nat with n by lia.
  - replace (Z.of_nat n + 1) with (Z.of_nat (S n)) in Hrun by lia.
    apply IH in Hrun; [| done | | |].
    + cbn [length] in *.
      match goal with
      | |- pending ?a _ _ _ _ _ =>
          match type of Hrun with
          | pending ?b _ _ _ _ _ => by replace a with b by lia
          end
      end.
    + intros k c Hk. replace (S n + k)%nat with (n + S k)%nat by lia.
      by apply Htok.
    + by apply Inv_next_position.
    + destruct Hpend1 as [H | [[_ H] | [-> H]]].
      * left. by apply at_pos_snoc_empty_2.
      * by apply elem_of_nil in H.
      * right; left. done.
Qed.

(** State set 0 holds an item for every production of the start symbol. *)
Lemma chart_seeds (fuel : nat) (g : Grammar) (start : Symbol)
    (inp : list Symbol) (history : list StateSet)
    (rules : list Production) (rule : Production) :
  chart fuel g start inp = Ok history →
  g !! start = Some rules → rule ∈ rules →
  at_pos history 0 (start, rule, 0, 0).
Proof.
  intros Hchart Hstart Hrule.
  destruct (chart_Inv _ _ _ _ _ Hchart) as [nextQ' [Hlen _ _ _ _ _ _ _]].
  revert Hchart. unfold chart, productions_of. rewrite Hstart.
  cbn [mbind result_bind].
  destruct (run fuel g 0 ((Some <$> inp) ++ [None]) [] []
              ((λ rule, (start, rule, 0, 0)) <$> rules))
    as [[[h a] n]| |] eqn:Hrun; [|done..].
  cbn [mbind result_bind]. intros [= ->].
  change (run fuel g 0) with (run fuel g (Z.of_nat 0)) in Hrun.
  eapply (run_pending_kept g ((Some <$> inp) ++ [None]) _ _ _ _ _ _ _ _
            0%nat (start, rule, 0, 0)) in Hrun.
  - eapply at_pos_final; [| |exact Hrun]; [|lia].
    rewrite Hlen, length_app, length_fmap. simpl. lia.
  - by destruct inp.
  - by intros k ch.
  - apply Inv_initial.
  - right; left. split; [done|]. by apply list_elem_of_fmap_2'  with rule.
Qed.

Lemma Derivable_wf (g : Grammar) (inp : list Symbol) (start : Symbol)
    (n : nat) (it : Item) :
  Derivable g inp start n it → wf_item n it.
Proof.
  induction 1 as [rules rule _ _ | n it x rules p _ _ _ _ _
                  | n [[[k r] d] o] x _ IH Hexp _ _
                  | n key rule dot index [[[pk pr] pd] pi] _ IH1 Hle Hidx _ IH2
                      Hexp]; simpl in *.
  - pose proof (len_nonneg rule). lia.
  - pose proof (len_nonneg p). lia.
  - destruct Hexp as [? Hx%lookup_lt_Some]. unfold len in *. lia.
  - destruct Hexp as [? Hx%lookup_lt_Some]. unfold len in *. lia.
Qed.

Lemma chart_generated (fuel : nat) (g : Grammar) (start : Symbol)
    (inp : list Symbol) (history : list StateSet) (i : nat) (it : Item) :
  chart fuel g start inp = Ok history →
  at_pos history i it → Derivable g inp start i it.
Proof.
  intros Hchart (s & Hs & Hit).
  eapply (chart_rule_induction g inp start (Derivable g inp start));
    [| | | |done..].
  - intros. by eapply Derivable_seed.
  - intros. by eapply Derivable_predict.
  - intros. by eapply Derivable_scan.
  - intros n key rule dot index w [_ ?] ??????.
    eapply Derivable_complete; [done..|lia|done|done].
Qed.

Lemma chart_holds (fuel : nat) (g : Grammar) (start : Symbol)
    (inp : list Symbol) (history : list StateSet) (i : nat) (it : Item) :
  chart fuel g start inp = Ok history →
  Derivable g inp start i it → at_pos history i it.
Proof.
  intros Hchart.
  destruct (chart_Inv _ _ _ _ _ Hchart)
    as [nextQ [Hlen _ Hwf _ _ Hpred Hscan Hcomp]].
  induction 1 as [rules rule Hstart Hrule | n it x rules p _ IH Hexp Hg Hp
                  | n it x _ IH Hexp Hg Htok
                  | n key rule dot index w _ IH1 Hle Hidx _ IH2 Hexp].
  - by eapply chart_seeds.
  - pose proof (at_pos_lt _ _ _ IH).
    eapply at_pos_final; [done | lia |]. by eapply Hpred.
  - pose proof (lookup_lt_Some _ _ _ Htok).
    eapply at_pos_final; [done | lia |]. eapply Hscan; [done..|].
    by apply tokens_lookup_Some.
  - pose proof (at_pos_lt _ _ _ IH1).
    destruct (Hcomp _ _ _ _ _ IH1 Hle) as [_ Hall].
    eapply at_pos_final; [done | lia |]. by apply Hall.
Qed.

(** X11.  The state sets of a returned chart hold exactly the items that Predict,
    Scan and Complete generate from the productions of the start symbol. *)
Theorem chart_exact (fuel : nat) (g : Grammar) (start : Symbol)
    (inp : list Symbol) (history : list StateSet) (i : nat) (it : Item) :
  chart fuel g start inp = Ok history →
  at_pos history i it ↔ Derivable g inp start i it.
Proof.
  intros Hchart. split; [by eapply chart_generated | by eapply chart_holds].
Qed.

Lemma chart_exact_witness :
  at_pos chart_2_plus 1 ("P"%string, ["S"%string], 1, 0)
  ↔ Derivable small_grammar (chars "2+") "P" 1
      ("P"%string, ["S"%string], 1, 0).
Proof.
  apply (chart_exact 64 small_grammar "P" (chars "2+") chart_2_plus).
  by vm_compute.
Defined.

(** ** Soundness: items are partial derivations *)

Lemma derives_app (g : Grammar) (alpha beta w1 w2 : list Symbol) :
  derives g alpha w1 → derives g beta w2 →
  derives g (alpha ++ beta) (w1 ++ w2).
Proof.
  induction 1 as [|x alpha w Hx _ IH|x rules p alpha u1 u2 Hx Hp Hd _ _ IH];
    intros Hbeta; simpl.
  - done.
  - apply derives_terminal; auto.
  - rewrite <- (assoc_L (++)). eapply derives_nonterminal; eauto.
Qed.

Lemma derives_symbol_terminal (g : Grammar) (x : Symbol) :
  g !! x = None → derives g [x] [x].
Proof. intros. apply derives_terminal; [done|apply derives_nil]. Qed.

Lemma derives_symbol_nonterminal (g : Grammar) (x : Symbol)
    (rules : list Production) (production : Production) (w : list Symbol) :
  g !! x = Some rules → production ∈ rules → derives g production w →
  derives g [x] w.
Proof.
  intros Hx Hp Hd. rewrite <- (app_nil_r w).
  eapply derives_nonterminal; [done..|apply derives_nil].
Qed.

Lemma span_empty (inp : list Symbol) (i : nat) : span inp i i = [].
Proof. unfold span. by rewrite Nat.sub_diag. Qed.

Lemma span_snoc (inp : list Symbol) (o i : nat) (x : Symbol) :
  (o ≤ i)%nat → inp !! i = Some x → span inp o (S i) = span inp o i ++ [x].
Proof.
  intros Hle Hx. unfold span.
  replace (S i - o)%nat with (S (i - o)) by lia.
  apply take_S_r. rewrite lookup_drop. by replace (o + (i - o))%nat with i by lia.
Qed.

Lemma span_app (inp : list Symbol) (p o i : nat) :
  (p ≤ o)%nat → (o ≤ i)%nat → span inp p o ++ span inp o i = span inp p i.
Proof.
  intros Hpo Hoi. unfold span.
  replace (drop o inp) with (drop (o - p) (drop p inp))
    by (rewrite drop_drop; f_equal; lia).
  rewrite take_take_drop. f_equal. lia.
Qed.

Lemma Derivable_sound (g : Grammar) (inp : list Symbol) (start : Symbol)
    (n : nat) (it : Item) :
  Derivable g inp start n it → valid_item g inp n it.
Proof.
  induction 1 as [rules rule Hstart Hrule | n it x rules p _ _ _ Hg Hp
                  | n [[[k r] d] o] x Hit IH Hexp Hg Htok
                  | n key rule dot index [[[pk pr] pd] pi] Hit IH1 Hle Hidx
                      Hw IH2 Hexp]; simpl in *.
  - exists rules. split_and!; [done..|]. rewrite span_empty. apply derives_nil.
  - exists rules. split_and!; [done..|]. rewrite Nat2Z.id, span_empty.
    apply derives_nil.
  - destruct IH as (rules & Hk & Hr & Hd). exists rules. split_and!; [done..|].
    destruct Hexp as [Hdot Hx]. apply Derivable_wf in Hit as [_ [Ho Hon]].
    replace (Z.to_nat (d + 1)) with (S (Z.to_nat d)) by lia.
    rewrite (take_S_r _ _ _ Hx), (span_snoc _ _ _ x) by (done || lia).
    apply derives_app; [done|]. by apply derives_symbol_terminal.
  - destruct IH1 as (rules & Hk & Hr & Hd).
    destruct IH2 as (prules & Hpk & Hpr & Hpd).
    exists prules. split_and!; [done..|].
    destruct Hexp as [Hdot Hx].
    apply Derivable_wf in Hit as [[_ Hdl] [_ Hon]].
    apply Derivable_wf in Hw as [_ [Hpi Hpio]].
    replace (Z.to_nat (pd + 1)) with (S (Z.to_nat pd)) by lia.
    rewrite (take_S_r _ _ _ Hx).
    rewrite <- (span_app inp (Z.to_nat pi) (Z.to_nat index) n) by lia.
    apply derives_app; [done|].
    eapply derives_symbol_nonterminal; [done..|].
    rewrite take_ge in Hd; [done|]. unfold len in *. lia.
Qed.

(** X12.  Every item of a returned chart stands for a partial derivation: its
    production is one of its nonterminal, and the symbols before the dot
    derive the input between the item's origin and its position. *)
Theorem chart_sound (fuel : nat) (g : Grammar) (start : Symbol)
    (inp : list Symbol) (history : list StateSet) (i : nat) (s : StateSet)
    (it : Item) :
  chart fuel g start inp = Ok history →
  history !! i = Some s → it ∈ s →
  valid_item g inp i it.
Proof.
  intros Hchart Hs Hit. eapply Derivable_sound, chart_generated; [done|].
  by exists s.
Qed.

Lemma chart_sound_witness :
  valid_item small_grammar (chars "2+") 2
    ("S"%string, ["S"; "+"; "M"]%string, 2, 0).
Proof.
  apply (chart_sound 64 small_grammar "P" (chars "2+") chart_2_plus 2
           (default [] (chart_2_plus !! 2%nat))).
  - by vm_compute.
  - reflexivity.
  - apply (bool_decide_unpack _). by vm_compute.
Defined.

Lemma spans_valid_derives (g : Grammar) (inp : list Symbol) (start : Symbol)
    (i : nat) (s : StateSet) :
  (∀ it, it ∈ s → valid_item g inp i it) →
  existsb (spans start) s = true →
  derives g [start] (take i inp).
Proof.
  intros Hvalid (it & Hit & Hspans)%existsb_exists.
  apply list_elem_of_In, Hvalid in Hit.
  destruct it as [[[key rule] dot] index]. unfold spans in Hspans.
  apply andb_prop in Hspans as [[Hidx Hkey]%andb_prop Hdot].
  apply bool_decide_eq_true in Hidx as ->.
  apply bool_decide_eq_true in Hkey as ->.
  apply Z.leb_le in Hdot.
  destruct Hit as (rules & Hk & Hr & Hd).
  eapply derives_symbol_nonterminal; [done..|].
  rewrite take_ge in Hd by (unfold len in *; lia).
  unfold span in Hd. simpl in Hd. by rewrite Nat.sub_0_r in Hd.
Qed.

(** ** Origins and dots *)

Lemma origin_dot_of_chart (fuel : nat) (g : Grammar) (start : Symbol)
    (inp : list Symbol) (history : list StateSet) (i : nat) (s : StateSet)
    (it : Item) :
  chart fuel g start inp = Ok history →
  history !! i = Some s → it ∈ s →
  (it.1.2 = 0 ∧ it.2 = Z.of_nat i) ∨ (1 ≤ it.1.2 ∧ it.2 < Z.of_nat i).
Proof.
  apply (chart_rule_induction g inp start
           (λ n it, (it.1.2 = 0 ∧ it.2 = Z.of_nat n)
                    ∨ (1 ≤ it.1.2 ∧ it.2 < Z.of_nat n))).
  - intros. left. done.
  - intros. left. done.
  - intros n [[[k r] d] o] x [? ?] _ _ _ _. simpl in *. right. lia.
  - intros n k r d o [[[pk pr] pd] pi] [_ ?] _ _ ? [? ?] _ _. simpl in *.
    right. lia.
Qed.

(** X8.  In a returned chart an item has its own position as origin exactly when
    its dot is at 0: such items come from Predict (or are seeds), and every
    advanced item started at an earlier position. *)
Theorem chart_origin_dot (fuel : nat) (g : Grammar) (start : Symbol)
    (inp : list Symbol) (history : list StateSet) (i : nat) (s : StateSet)
    (key : Symbol) (rule : Production) (dot index : Z) :
  chart fuel g start inp = Ok history →
  history !! i = Some s →
  (key, rule, dot, index) ∈ s →
  (dot = 0 ∧ index = Z.of_nat i) ∨ (1 ≤ dot ∧ index < Z.of_nat i).
Proof.
  intros Hchart Hs Hit.
  apply (origin_dot_of_chart _ _ _ _ _ _ _ _ Hchart Hs Hit).
Qed.

Lemma chart_origin_dot_witness :
  (0 = 0 ∧ 2 = Z.of_nat 2) ∨ (1 ≤ 0 ∧ 2 < Z.of_nat 2).
Proof.
  apply (chart_origin_dot 64 small_grammar "P" (chars "2+") chart_2_plus 2
           (default [] (chart_2_plus !! 2%nat)) "M" ["T"%string] 0 2).
  - by vm_compute.
  - reflexivity.
  - apply (bool_decide_unpack _). by vm_compute.
Defined.

Lemma nonempty_of_chart (fuel : nat) (g : Grammar)
    (start : Symbol) (inp : list Symbol) (history : list StateSet) (i : nat)
    (s : StateSet) (key : Symbol) (rule : Production) (dot index : Z) :
  chart fuel g start inp = Ok history →
  history !! i = Some s →
  (key, rule, dot, index) ∈ s →
  rule ≠ [].
Proof.
  intros Hchart Hs Hit ->.
  destruct (chart_Inv _ _ _ _ _ Hchart) as [nextQ [_ _ Hwf _ _ _ _ Hcomp]].
  destruct (Hwf i (key, [], dot, index)) as [Hdot _]; [by exists s|].
  change (len (@nil Symbol)) with 0 in Hdot.
  destruct (Hcomp i key [] dot index) as [Hlt _];
    [by exists s | simpl; unfold len; simpl; lia |].
  destruct (origin_dot_of_chart _ _ _ _ _ _ _ _ Hchart Hs Hit);
    simpl in *; lia.
Qed.

(** X9.  No item of a returned chart has an empty production: predicting one
    makes Complete read past its end, and the build fails. *)
Theorem chart_nonempty_productions (fuel : nat) (g : Grammar)
    (start : Symbol) (inp : list Symbol) (history : list StateSet) (i : nat)
    (s : StateSet) (key : Symbol) (rule : Production) (dot index : Z) :
  chart fuel g start inp = Ok history →
  history !! i = Some s →
  (key, rule, dot, index) ∈ s →
  rule ≠ [].
Proof. apply nonempty_of_chart. Qed.

Lemma chart_nonempty_productions_witness : ["T"%string] ≠ [].
Proof.
  apply (chart_nonempty_productions 64 small_grammar "P" (chars "2+")
           chart_2_plus 2 (default [] (chart_2_plus !! 2%nat))
           "M" ["T"%string] 0 2).
  - by vm_compute.
  - reflexivity.
  - apply (bool_decide_unpack _). by vm_compute.
Defined.

(** ** [parse] *)

Lemma foldl_add_spec (l acc : StateSet) :
  (∀ it, it ∈ foldl (λ s it, add it s) acc l ↔ it ∈ acc ∨ it ∈ l)
  ∧ (NoDup acc → NoDup (foldl (λ s it, add it s) acc l))
  ∧ (NoDup (acc ++ l) → foldl (λ s it, add it s) acc l = acc ++ l).
Proof.
  revert acc. induction l as [|x l IH]; intros acc; simpl.
  - split_and!; [|done|by rewrite app_nil_r].
    intros it. rewrite elem_of_nil. naive_solver.
  - destruct (IH (add x acc)) as (IH1 & IH2 & IH3). split_and!.
    + intros it. rewrite IH1, elem_of_add, elem_of_cons. naive_solver.
    + intros ?. by apply IH2, NoDup_add.
    + intros Hnd.
      assert (add x acc = acc ++ [x]) as ->.
      { unfold add, mem. rewrite bool_decide_eq_false_2; [done|].
        apply NoDup_app in Hnd as (_ & Hnd & _). intros ?.
        eapply Hnd; [done|]. apply elem_of_cons. by left. }
      destruct (IH (acc ++ [x])) as (_ & _ & ->);
        rewrite <- (assoc_L (++)); done.
Qed.

Lemma elem_of_OrderedSet (l : list Item) (it : Item) :
  it ∈ OrderedSet l ↔ it ∈ l.
Proof.
  unfold OrderedSet. destruct (foldl_add_spec l []) as (H & _ & _).
  rewrite H, elem_of_nil. naive_solver.
Qed.

Lemma NoDup_OrderedSet (l : list Item) : NoDup (OrderedSet l).
Proof.
  unfold OrderedSet. destruct (foldl_add_spec l []) as (_ & H & _).
  apply H, NoDup_nil_2.
Qed.

Lemma OrderedSet_NoDup (l : list Item) : NoDup l → OrderedSet l = l.
Proof.
  unfold OrderedSet. destruct (foldl_add_spec l []) as (_ & _ & H). apply H.
Qed.

Lemma parse_lookup (chart : list StateSet) (inp : list Symbol) (k : nat)
    (s' : StateSet) :
  parse chart inp !! k = Some s' →
  ∃ page, chart !! (length chart - S k)%nat = Some page
    ∧ (k < length chart)%nat
    ∧ NoDup s'
    ∧ ∀ key rule dot index,
        (key, rule, dot, index) ∈ s'
        ↔ (key, rule, dot, index) ∈ page ∧ len rule ≤ dot.
Proof.
  unfold parse. rewrite list_lookup_fmap.
  destruct (reverse chart !! k) as [page|] eqn:Hpage; [|done].
  simpl. intros [= <-]. apply reverse_lookup_Some in Hpage as [Hpage Hk].
  exists page. split_and!; [done | done | apply NoDup_OrderedSet |].
  intros key rule dot index.
  rewrite elem_of_OrderedSet, list_elem_of_filter. simpl. naive_solver.
Qed.



(** X18.  On a chart that [chart] has returned nothing is ever dropped as a
    repetition: [parse] is the reversed chart with every state set filtered,
    in its insertion order. *)
Theorem parse_chart (fuel : nat) (g : Grammar) (start : Symbol)
    (inp inp' : list Symbol) (history : list StateSet) :
  chart fuel g start inp = Ok history →
  parse history inp'
  = filter (λ item : Item, len item.1.1.2 ≤ item.1.2) <$> reverse history.
Proof.
  intros [nextQ [_ Hnd _ _ _ _ _ _]]%chart_Inv. unfold parse.
  apply list_fmap_ext. intros k page Hpage.
  apply reverse_lookup_Some in Hpage as [Hpage _].
  apply OrderedSet_NoDup, NoDup_filter. by eapply Hnd.
Qed.

Lemma parse_chart_witness :
  parse chart_2_plus (chars "2+")
  = filter (λ item : Item, len item.1.1.2 ≤ item.1.2) <$> reverse chart_2_plus.
Proof.
  apply (parse_chart 64 small_grammar "P" (chars "2+")). by vm_compute.
Defined.

(** X19.  What [parse] keeps of a returned chart are the recognised constituents:
    an item in its [k]-th state set comes from position [N - k] (with [N] the
    number of tokens), its dot is exactly at the end of its production, it
    started strictly before that position, and its nonterminal derives the
    tokens in between. *)
Theorem parse_chart_constituents (fuel : nat) (g : Grammar) (start : Symbol)
    (inp inp' : list Symbol) (history : list StateSet) (k : nat)
    (s' : StateSet) (key : Symbol) (rule : Production) (dot index : Z) :
  chart fuel g start inp = Ok history →
  parse history inp' !! k = Some s' →
  (key, rule, dot, index) ∈ s' →
  (k ≤ length inp)%nat
  ∧ dot = len rule
  ∧ 0 ≤ index < Z.of_nat (length inp - k)
  ∧ derives g [key] (span inp (Z.to_nat index) (length inp - k)).
Proof.
  intros Hchart Hk Hit.
  destruct (chart_Inv _ _ _ _ _ Hchart)
    as [nextQ [Hlen _ Hwf _ _ _ _ Hcomp]].
  destruct (parse_lookup history inp' k s' Hk)
    as (page & Hpage & Hlt & _ & Hmem).
  apply Hmem in Hit as [Hit Hle]. rewrite Hlen in Hpage, Hlt.
  replace (S (length inp) - S k)%nat with (length inp - k)%nat in Hpage
    by lia.
  assert (at_pos history (length inp - k) (key, rule, dot, index)) as Hat
    by (by exists page).
  destruct (Hwf _ _ Hat) as [Hdot Hidx].
  destruct (Hcomp _ _ _ _ _ Hat Hle) as [Hlt' _].
  split_and!; [lia..|].
  apply (chart_generated _ _ _ _ _ _ _ Hchart), Derivable_sound in Hat
    as (rules & Hg & Hr & Hd).
  eapply derives_symbol_nonterminal; [done..|].
  rewrite take_ge in Hd by (unfold len in *; lia). done.
Qed.

Lemma parse_chart_constituents_witness :
  (1 ≤ length (chars "2+"))%nat
  ∧ 1 = len ["S"%string]
  ∧ 0 ≤ 0 < Z.of_nat (length (chars "2+") - 1)
  ∧ derives small_grammar ["P"%string]
      (span (chars "2+") (Z.to_nat 0) (length (chars "2+") - 1)).
Proof.
  apply (parse_chart_constituents 64 small_grammar "P" (chars "2+") []
           chart_2_plus 1
           (default [] (parse chart_2_plus [] !! 1%nat)) "P" ["S"%string] 1 0).
  - by vm_compute.
  - reflexivity.
  - apply (bool_decide_unpack _). by vm_compute.
Defined.

(** ** More on the three rules *)

(** X5.  When every searched item has its dot strictly inside its production,
    Complete succeeds and returns, in the order of the searched set, the
    advanced copy of each item that waits for [key] and whose advanced copy
    is not in [seen]. *)
Theorem completer_exact (key : Symbol) (search_set seen : StateSet) :
  (∀ pk pr pd pi, (pk, pr, pd, pi) ∈ search_set → 0 ≤ pd < len pr) →
  completer key search_set seen
  = Ok (advance <$>
          filter (λ w, expects w key ∧ advance w ∉ seen) search_set).
Proof.
  induction search_set as [|[[[pk pr] pd] pi] rest IH]; intros Hin; [done|].
  assert (0 ≤ pd < len pr) as Hpd by (apply (Hin pk pr pd pi), elem_of_cons; auto).
  cbn [completer].
  destruct (Z.leb_spec pd (len pr)) as [_|?]; [|lia].
  destruct (lookup_lt_is_Some_2 pr (Z.to_nat pd)) as [x Hx];
    [unfold len in *; lia|].
  assert (expects (pk, pr, pd, pi) x) as Hexp by (split; [lia|done]).
  rewrite (getitem_expects _ _ _ _ _ Hexp). cbn [mbind result_bind].
  rewrite IH by (intros a b c d ?; apply (Hin a b c d), elem_of_cons; auto).
  unfold mem. case_bool_decide as Hkey; [case_bool_decide as Hseen|]; simpl.
  - rewrite filter_cons_False; [done|]. simpl. naive_solver.
  - rewrite filter_cons_True; [done|]. simpl. subst x. done.
  - rewrite filter_cons_False; [done|]. intros [Hexp' _].
    apply Hkey. by eapply expects_inj.
Qed.

Lemma completer_exact_witness :
  completer "T" (default [] (chart_2_plus !! 0%nat))
    [("T"%string, ["2"%string], 1, 0)]
  = Ok (advance <$>
          filter (λ w, expects w "T"
                       ∧ advance w ∉ [("T"%string, ["2"%string], 1, 0)])
            (default [] (chart_2_plus !! 0%nat))).
Proof.
  apply (completer_exact "T" (default [] (chart_2_plus !! 0%nat))
           [("T"%string, ["2"%string], 1, 0)]).
  intros pk pr pd pi Hin. vm_compute in Hin.
  repeat (apply elem_of_cons in Hin as [[= -> -> -> ->] | Hin];
          [unfold len; simpl; lia|]).
  by apply elem_of_nil in Hin.
Defined.

Example completer_exact_value :
  advance <$>
    filter (λ w, expects w "T"
                 ∧ advance w ∉ [("T"%string, ["2"%string], 1, 0)])
      (default [] (chart_2_plus !! 0%nat))
  = [("M"%string, ["T"%string], 1, 0)].
Proof. by vm_compute. Qed.



(** ** The chart of a prefix of the input *)

Lemma step_token_indep (g : Grammar) (i : Z) (ch ch2 : option Symbol)
    (item : Item) (history : list StateSet) (activeQ nextQ nextQ2 : list Item)
    (history' : list StateSet) (activeQ' nextQ' : list Item) :
  step g i ch item history activeQ nextQ = Ok (history', activeQ', nextQ') →
  ∃ nextQ2', step g i ch2 item history activeQ nextQ2
             = Ok (history', activeQ', nextQ2').
Proof.
  unfold step. destruct (add_last history item) as [h1| |]; [|done..].
  cbn [mbind result_bind]. destruct item as [[[key rule] dot] index].
  destruct (dot <? len rule).
  - destruct (getitem rule dot) as [x| |] eqn:Hx; [|done..].
    cbn [mbind result_bind]. destruct (contains g x).
    + destruct (getitem h1 i) as [seen| |]; [|done..].
      cbn [mbind result_bind].
      destruct (predictor x g seen i) as [new| |]; [|done..].
      cbn [mbind result_bind]. intros [= <- <- <-]. eauto.
    + unfold scanner. rewrite Hx. cbn [mbind result_bind].
      destruct (_ && _); intros [= <- <- <-]; destruct (_ && _); eauto.
  - destruct (getitem h1 index) as [search_set| |]; [|done..].
    cbn [mbind result_bind].
    destruct (getitem h1 i) as [seen| |]; [|done..].
    cbn [mbind result_bind].
    destruct (completer key search_set seen) as [new| |]; [|done..].
    cbn [mbind result_bind]. intros [= <- <- <-]. eauto.
Qed.

Lemma drain_token_indep (g : Grammar) (i : Z) (ch ch2 : option Symbol)
    (fuel : nat) (history : list StateSet) (activeQ nextQ nextQ2 : list Item)
    (history' : list StateSet) (activeQ' nextQ' : list Item) :
  drain fuel g i ch history activeQ nextQ = Ok (history', activeQ', nextQ') →
  ∃ nextQ2', drain fuel g i ch2 history activeQ nextQ2
             = Ok (history', activeQ', nextQ2').
Proof.
  revert history activeQ nextQ nextQ2.
  induction fuel as [|fuel IH]; intros history [|item activeQ] nextQ nextQ2;
    simpl; try done; try (intros [= <- <- <-]; by eauto).
  destruct (step g i ch item history activeQ nextQ)
    as [[[h1 a1] n1]| |] eqn:Hstep; [|done..].
  cbn [mbind result_bind]. intros Hdrain.
  destruct (step_token_indep g i ch ch2 _ _ _ _ nextQ2 _ _ _ Hstep)
    as [n2 ->].
  cbn [mbind result_bind]. by eapply IH.
Qed.

Lemma step_frozen (g : Grammar) (i : Z) (ch : option Symbol) (item : Item)
    (history : list StateSet) (activeQ nextQ : list Item)
    (history' : list StateSet) (activeQ' nextQ' : list Item) :
  step g i ch item history activeQ nextQ = Ok (history', activeQ', nextQ') →
  length history' = length history
  ∧ take (length history - 1) history' = take (length history - 1) history.
Proof.
  unfold step, add_last. destruct history as [|s0 history]; [done|].
  cbn [mbind result_bind]. set (h1 := alter _ _ _).
  assert (length h1 = length (s0 :: history)
          ∧ take (length (s0 :: history) - 1) h1
            = take (length (s0 :: history) - 1) (s0 :: history)) as Hh1.
  { unfold h1. by rewrite length_alter, take_alter_ge. }
  destruct item as [[[key rule] dot] index].
  destruct (dot <? len rule).
  - destruct (getitem rule dot) as [x| |]; [|done..].
    cbn [mbind result_bind]. destruct (contains g x).
    + destruct (getitem h1 i) as [seen| |]; [|done..].
      cbn [mbind result_bind].
      destruct (predictor x g seen i) as [new| |]; [|done..].
      cbn [mbind result_bind]. by intros [= <- <- <-].
    + destruct (scanner _ ch nextQ) as [Q'| |]; [|done..].
      cbn [mbind result_bind]. by intros [= <- <- <-].
  - destruct (getitem h1 index) as [search_set| |]; [|done..].
    cbn [mbind result_bind].
    destruct (getitem h1 i) as [seen| |]; [|done..].
    cbn [mbind result_bind].
    destruct (completer key search_set seen) as [new| |]; [|done..].
    cbn [mbind result_bind]. by intros [= <- <- <-].
Qed.

Lemma drain_frozen (g : Grammar) (i : Z) (ch : option Symbol) (fuel : nat)
    (history : list StateSet) (activeQ nextQ : list Item)
    (history' : list StateSet) (activeQ' nextQ' : list Item) :
  drain fuel g i ch history activeQ nextQ = Ok (history', activeQ', nextQ') →
  activeQ' = []
  ∧ length history' = length history
  ∧ take (length history - 1) history' = take (length history - 1) history.
Proof.
  revert history activeQ nextQ.
  induction fuel as [|fuel IH]; intros history [|item activeQ] nextQ;
    simpl; try done; try (by intros [= <- <- <-]).
  destruct (step g i ch item history activeQ nextQ)
    as [[[h1 a1] n1]| |] eqn:Hstep; [|done..].
  cbn [mbind result_bind]. intros (-> & Hlen & Htake)%IH.
  apply step_frozen in Hstep as [Hlen1 Htake1].
  split_and!; [done|congruence|]. rewrite <- Htake1, <- Hlen1. done.
Qed.

(** A state set is not touched any more once the loop has moved past its
    position. *)
Lemma run_frozen (g : Grammar) (fuel : nat) (tokens : list (option Symbol))
    (i : Z) (history : list StateSet) (activeQ nextQ : list Item)
    (history' : list StateSet) (activeQ' nextQ' : list Item) :
  run fuel g i tokens history activeQ nextQ = Ok (history', activeQ', nextQ') →
  take (length history) history' = history.
Proof.
  revert i history activeQ nextQ.
  induction tokens as [|ch tokens IH]; intros i history activeQ nextQ; simpl.
  { intros [= <- <- <-]. by rewrite take_ge. }
  destruct (drain fuel g i ch (history ++ [[]]) nextQ activeQ)
    as [[[h1 a1] n1]| |] eqn:Hdrain; [|done..].
  cbn [mbind result_bind]. intros Hrun%IH.
  apply drain_frozen in Hdrain as (_ & Hlen & Htake).
  rewrite length_app in Hlen, Htake. simpl in Hlen, Htake.
  replace (length history + 1 - 1)%nat with (length history) in Htake by lia.
  rewrite take_app_length in Htake.
  transitivity (take (length history) (take (length h1) history')).
  - rewrite take_take. f_equal. lia.
  - by rewrite Hrun.
Qed.

Lemma run_prefix (g : Grammar) (fuel : nat) (inp1 : list Symbol)
    (ch : option Symbol) (rest : list (option Symbol)) (i : Z)
    (history : list StateSet) (nextQ : list Item)
    (history' : list StateSet) (activeQ' nextQ' : list Item) :
  run fuel g i ((Some <$> inp1) ++ ch :: rest) history [] nextQ
  = Ok (history', activeQ', nextQ') →
  ∃ nextQ1,
    run fuel g i ((Some <$> inp1) ++ [None]) history [] nextQ
    = Ok (take (length history + length inp1 + 1) history', [], nextQ1).
Proof.
  revert i history nextQ.
  induction inp1 as [|t inp1 IH]; intros i history nextQ; simpl.
  - destruct (drain fuel g i ch (history ++ [[]]) nextQ [])
      as [[[h1 a1] n1]| |] eqn:Hdrain; [|done..].
    cbn [mbind result_bind]. intros Hrun%run_frozen.
    destruct (drain_token_indep g i ch None _ _ _ _ [] _ _ _ Hdrain)
      as [n2 ->].
    cbn [mbind result_bind].
    apply drain_frozen in Hdrain as (-> & Hlen & _).
    rewrite length_app in Hlen. simpl in Hlen.
    exists n2. replace (length history + 0 + 1)%nat with (length h1) by lia.
    by rewrite Hrun.
  - destruct (drain fuel g i (Some t) (history ++ [[]]) nextQ [])
      as [[[h1 a1] n1]| |] eqn:Hdrain; [|done..].
    cbn [mbind result_bind].
    apply drain_frozen in Hdrain as (-> & Hlen & _).
    rewrite length_app in Hlen. simpl in Hlen.
    intros [n2 Hrun]%IH. exists n2. cbn [mbind result_bind].
    replace (length history + S (length inp1) + 1)%nat
      with (length h1 + length inp1 + 1)%nat by lia.
    exact Hrun.
Qed.

(** X15.  The chart of a prefix of the input is a prefix of the chart: when the
    build succeeds on [inp1 ++ inp2], it succeeds on [inp1] and returns the
    first [len(inp1) + 1] state sets, item for item in the same order. *)
Theorem chart_prefix (fuel : nat) (g : Grammar) (start : Symbol)
    (inp1 inp2 : list Symbol) (history : list StateSet) :
  chart fuel g start (inp1 ++ inp2) = Ok history →
  chart fuel g start inp1 = Ok (take (S (length inp1)) history).
Proof.
  destruct inp2 as [|t inp2].
  { rewrite app_nil_r. intros Hchart. rewrite take_ge; [done|].
    destruct (chart_Inv _ _ _ _ _ Hchart) as [? [Hlen _ _ _ _ _ _ _]]. lia. }
  unfold chart. destruct (productions_of g start) as [rules| |]; [|done..].
  cbn [mbind result_bind]. rewrite fmap_app, <- (assoc_L (++)). simpl.
  destruct (run fuel g 0 _ [] [] _) as [[[h a] n]| |] eqn:Hrun; [|done..].
  cbn [mbind result_bind]. intros [= <-].
  apply run_prefix in Hrun as [n1 ->]. cbn [mbind result_bind].
  do 2 f_equal. simpl. lia.
Qed.

Lemma chart_prefix_witness :
  chart 64 small_grammar "P" (chars "2") = Ok (take 2 chart_2_plus).
Proof.
  apply (chart_prefix 64 small_grammar "P" (chars "2") (chars "+")).
  by vm_compute.
Defined.

(** ** Completeness: derivations are found *)

Lemma Inv_closed (g : Grammar) (inp : list Symbol) (history : list StateSet)
    (nextQ : list Item) :
  Inv g ((Some <$> inp) ++ [None]) (length inp) history [] nextQ →
  closed g inp history.
Proof.
  intros [Hlen _ Hwf _ _ Hpred Hscan Hcomp].
  intros i it Hit. pose proof (at_pos_lt _ _ _ Hit) as Hi. split_and!.
  - intros x rules p Hx Hg Hp.
    eapply at_pos_final; [done | lia |]. by eapply Hpred.
  - intros x Hx Hg Htok.
    pose proof (lookup_lt_Some _ _ _ Htok).
    eapply at_pos_final; [done | lia |]. eapply Hscan; [done..|].
    by apply tokens_lookup_Some.
  - intros key rule dot index w -> Hle Hidx Hw Hexp.
    destruct (Hcomp _ _ _ _ _ Hit Hle) as [_ Hall].
    eapply at_pos_final; [done | lia |]. by apply Hall.
Qed.

(** In a closed chart, an item whose remaining symbols start with [beta]
    moves its dot across [beta] along any derivation of the coming tokens
    from [beta]. *)
Lemma closed_derives (g : Grammar) (inp : list Symbol)
    (history : list StateSet) (beta w : list Symbol) :
  closed g inp history →
  derives g beta w →
  ∀ (i : nat) (key : Symbol) (rule : Production) (dot index : Z)
    (gamma : list Symbol),
    at_pos history i (key, rule, dot, index) →
    0 ≤ dot →
    drop (Z.to_nat dot) rule = beta ++ gamma →
    take (length w) (drop i inp) = w →
    at_pos history (i + length w) (key, rule, dot + len beta, index).
Proof.
  intros Hclosed.
  induction 1 as [|x alpha w Hx _ IH
                  |x rules p alpha w1 w2 Hx Hp _ IH1 _ IH2];
    intros i key rule dot index gamma Hat Hdot Hdrop Hw.
  - change (len (@nil Symbol)) with 0. simpl.
    by rewrite Z.add_0_r, Nat.add_0_r.
  - assert (expects (key, rule, dot, index) x) as Hexp.
    { split; [done|]. rewrite <- (Nat.add_0_r (Z.to_nat dot)), <- lookup_drop.
      by rewrite Hdrop. }
    assert (inp !! i = Some x) as Hi.
    { rewrite <- (Nat.add_0_r i), <- lookup_drop.
      destruct (drop i inp) as [|y l]; simpl in Hw; [done|].
      simpl. congruence. }
    destruct (Hclosed i _ Hat) as (_ & Hscan & _).
    specialize (Hscan x Hexp Hx Hi). simpl in Hscan.
    apply (IH (S i) key rule (dot + 1) index gamma) in Hscan.
    + replace (i + length (x :: w))%nat with (S i + length w)%nat
        by (simpl; lia).
      replace (dot + len (x :: alpha)) with (dot + 1 + len alpha)
        by (unfold len; simpl; lia).
      done.
    + lia.
    + replace (Z.to_nat (dot + 1)) with (S (Z.to_nat dot)) by lia.
      destruct Hexp as [_ Hr]. rewrite (drop_S _ _ _ Hr) in Hdrop.
      simpl in Hdrop. congruence.
    + rewrite (drop_S _ _ _ Hi) in Hw. simpl in Hw. congruence.
  - assert (expects (key, rule, dot, index) x) as Hexp.
    { split; [done|]. rewrite <- (Nat.add_0_r (Z.to_nat dot)), <- lookup_drop.
      by rewrite Hdrop. }
    rewrite length_app in Hw.
    assert (take (length w1) (drop i inp) = w1
            ∧ take (length w2) (drop (i + length w1) inp) = w2) as [Hw1 Hw2].
    { rewrite <- take_take_drop in Hw.
      apply app_inj_1 in Hw as [Hw1 Hw2].
      - split; [done|]. rewrite <- drop_drop. done.
      - rewrite length_take, length_drop.
        assert (length (take (length w1) (drop i inp)
                        ++ take (length w2) (drop (length w1) (drop i inp)))
                = length (w1 ++ w2)) as Hlen by (by rewrite Hw).
        rewrite !length_app, !length_take, !length_drop in Hlen. lia. }
    destruct (Hclosed i _ Hat) as (Hpredict & _ & _).
    specialize (Hpredict x rules p Hexp Hx Hp).
    apply (IH1 i x p 0 (Z.of_nat i) []) in Hpredict;
      [|done|by rewrite app_nil_r|done].
    destruct (Hclosed (i + length w1)%nat _ Hpredict) as (_ & _ & Hcomplete).
    specialize (Hcomplete x p (0 + len p) (Z.of_nat i) (key, rule, dot, index)
                  eq_refl).
    rewrite Nat2Z.id in Hcomplete.
    specialize (Hcomplete ltac:(lia) ltac:(lia) Hat Hexp). simpl in Hcomplete.
    apply (IH2 (i + length w1)%nat key rule (dot + 1) index gamma)
      in Hcomplete.
    + replace (i + length (w1 ++ w2))%nat
        with (i + length w1 + length w2)%nat by (rewrite length_app; lia).
      replace (dot + len (x :: alpha)) with (dot + 1 + len alpha)
        by (unfold len; simpl; lia).
      done.
    + lia.
    + replace (Z.to_nat (dot + 1)) with (S (Z.to_nat dot)) by lia.
      destruct Hexp as [_ Hr]. rewrite (drop_S _ _ _ Hr) in Hdrop.
      simpl in Hdrop. congruence.
    + done.
Qed.

Lemma chart_start_key (fuel : nat) (g : Grammar) (start : Symbol)
    (inp : list Symbol) (history : list StateSet) :
  chart fuel g start inp = Ok history → is_Some (g !! start).
Proof.
  unfold chart, productions_of. destruct (g !! start); [eauto|done].
Qed.

Lemma derives_spans (fuel : nat) (g : Grammar) (start : Symbol)
    (inp : list Symbol) (history : list StateSet) (i : nat) (s : StateSet) :
  chart fuel g start inp = Ok history →
  history !! i = Some s →
  derives g [start] (take i inp) →
  existsb (spans start) s = true.
Proof.
  intros Hchart Hs Hd.
  destruct (chart_Inv _ _ _ _ _ Hchart) as [nextQ HI].
  pose proof (inv_length _ _ _ _ _ _ HI) as Hlen.
  pose proof (lookup_lt_Some _ _ _ Hs) as Hi.
  destruct (chart_start_key _ _ _ _ _ Hchart) as [rules Hstart].
  inversion Hd as [|? ? ? Hnone|x rules' p alpha w1 w2 Hg Hp Hd1 Hd2 [Hx Ha] Hw];
    [congruence|]. subst.
  inversion Hd2; subst. rewrite app_nil_r in Hw.
  assert (length w1 = i) as Hlw.
  { rewrite Hw, length_take. lia. }
  pose proof (chart_seeds _ _ _ _ _ _ p Hchart Hg Hp) as Hseed.
  apply (closed_derives g inp history p w1 (Inv_closed _ _ _ _ HI) Hd1
           0%nat start p 0 0 []) in Hseed;
    [|done|by rewrite app_nil_r|by rewrite Hlw, Hw].
  simpl in Hseed. rewrite Hlw in Hseed. destruct Hseed as (s' & Hs' & Hin).
  assert (s' = s) as -> by congruence.
  apply existsb_exists. exists (start, p, len p, 0).
  split; [by apply list_elem_of_In|]. unfold spans.
  rewrite !bool_decide_eq_true_2 by done. simpl. apply Z.leb_le. lia.
Qed.

(** X13.  Recognition is correct on every chart that is returned: the state set
    at position [i] holds a completed item of origin 0 for the start symbol
    exactly when the grammar derives the first [i] tokens of the input from
    the start symbol.  For the last state set this is the whole input. *)
Theorem chart_recognises (fuel : nat) (g : Grammar) (start : Symbol)
    (inp : list Symbol) (history : list StateSet) (i : nat) (s : StateSet) :
  chart fuel g start inp = Ok history →
  history !! i = Some s →
  existsb (spans start) s = true ↔ derives g [start] (take i inp).
Proof.
  intros Hchart Hs. split.
  - apply spans_valid_derives. intros it Hit.
    eapply Derivable_sound, chart_generated; [done|]. by exists s.
  - by eapply derives_spans.
Qed.

Lemma chart_recognises_witness :
  existsb (spans "P") (default [] (chart_2_plus !! 2%nat)) = true
  ↔ derives small_grammar ["P"%string] (take 2 (chars "2+")).
Proof.
  apply (chart_recognises 64 small_grammar "P" (chars "2+") chart_2_plus 2).
  - by vm_compute.
  - reflexivity.
Defined.

(** X14.  Handed the whole chart, as [small_test] and [larger_test] do,
    [recognizer] never raises, and it answers true exactly when the grammar
    derives SOME prefix of the input from the start symbol. *)
Theorem recognizer_chart_prefix (fuel : nat) (g : Grammar) (start : Symbol)
    (inp : list Symbol) (history : list StateSet) :
  chart fuel g start inp = Ok history →
  (∃ b, recognizer (PStr start) (of_chart history) = Ok b)
  ∧ (recognizer (PStr start) (of_chart history) = Ok true
     ↔ ∃ i : nat, (i ≤ length inp)%nat ∧ derives g [start] (take i inp)).
Proof.
  intros Hchart. rewrite recognizer_of_chart. split; [eauto|].
  destruct (chart_Inv _ _ _ _ _ Hchart) as [nextQ HI].
  pose proof (inv_length _ _ _ _ _ _ HI) as Hlen.
  split.
  - intros [= Hex]. apply existsb_exists in Hex as (s & Hs & Hspans).
    apply list_elem_of_In, list_elem_of_lookup_1 in Hs as [i Hi].
    exists i. split; [apply lookup_lt_Some in Hi; lia|].
    apply (spans_valid_derives g inp start i s); [|done]. intros it Hit.
    eapply Derivable_sound, chart_generated; [done|]. by exists s.
  - intros (i & Hi & Hd).
    destruct (lookup_lt_is_Some_2 history i) as [s Hs]; [lia|].
    f_equal. apply existsb_exists. exists s.
    split; [by eapply list_elem_of_In, list_elem_of_lookup_2|].
    by eapply derives_spans.
Qed.

Lemma recognizer_chart_prefix_witness :
  (∃ b, recognizer (PStr "P") (of_chart chart_2_plus) = Ok b)
  ∧ (recognizer (PStr "P") (of_chart chart_2_plus) = Ok true
     ↔ ∃ i : nat, (i ≤ length (chars "2+"))%nat
         ∧ derives small_grammar ["P"%string] (take i (chars "2+"))).
Proof.
  apply (recognizer_chart_prefix 64 small_grammar "P" (chars "2+")).
  by vm_compute.
Defined.

(** ** When the input stops fitting *)

Lemma Derivable_earlier (g : Grammar) (inp : list Symbol) (start : Symbol)
    (n : nat) (it : Item) :
  Derivable g inp start n it →
  ∀ i : nat, (i ≤ n)%nat → ∃ it', Derivable g inp start i it'.
Proof.
  induction 1 as [rules rule Hstart Hrule | n it x rules p Hit IH Hexp Hg Hp
                  | n it x Hit IH Hexp Hg Htok
                  | n key rule dot index w Hit IH1 Hle Hidx Hw IH2 Hexp];
    intros i Hi.
  - replace i with 0%nat by lia. eexists. by eapply Derivable_seed.
  - by apply IH.
  - destruct (decide (i = S n)) as [->|]; [|apply IH; lia].
    eexists. by eapply Derivable_scan.
  - by apply IH1.
Qed.

(** X16.  Once a state set of a returned chart is empty, every later one is empty
    too: nothing was scanned, so nothing can be predicted or completed. *)
Theorem chart_stays_empty (fuel : nat) (g : Grammar) (start : Symbol)
    (inp : list Symbol) (history : list StateSet) (i j : nat) (s : StateSet) :
  chart fuel g start inp = Ok history →
  history !! i = Some [] →
  (i ≤ j)%nat →
  history !! j = Some s →
  s = [].
Proof.
  intros Hchart Hi Hij Hj. destruct s as [|it s]; [done|]. exfalso.
  assert (at_pos history j it) as Hat.
  { exists (it :: s). split; [done|]. apply elem_of_cons. by left. }
  apply (chart_generated _ _ _ _ _ _ _ Hchart) in Hat.
  destruct (Derivable_earlier _ _ _ _ _ Hat i Hij) as [it' Hit'].
  apply (chart_holds _ _ _ _ _ _ _ Hchart) in Hit' as (s' & Hs' & Hin).
  rewrite Hi in Hs'. injection Hs' as <-. by apply elem_of_nil in Hin.
Qed.

Lemma chart_stays_empty_witness :
  chart 64 small_grammar "P" (chars "+2")
  = Ok (take 1 chart_2_plus ++ [[]; []])
  ∧ @nil Item = [].
Proof.
  split; [by vm_compute|].
  apply (chart_stays_empty 64 small_grammar "P" (chars "+2")
           (take 1 chart_2_plus ++ [[]; []]) 1 2 []).
  - by vm_compute.
  - reflexivity.
  - lia.
  - reflexivity.
Defined.

(** ** [print_chart] *)

Lemma string_app_cons (c : ascii) (s1 s2 : string) :
  String c s1 +:+ s2 = String c (s1 +:+ s2).
Proof. reflexivity. Qed.

Lemma string_app_nil_l (s : string) : "" +:+ s = s.
Proof. reflexivity. Qed.

Lemma string_app_assoc (s1 s2 s3 : string) :
  (s1 +:+ s2) +:+ s3 = s1 +:+ s2 +:+ s3.
Proof.
  induction s1 as [|c s1 IH]; [done|]. rewrite !string_app_cons. by f_equal.
Qed.

Lemma string_app_nil_r (s : string) : s +:+ "" = s.
Proof.
  induction s as [|c s IH]; [done|]. rewrite string_app_cons. by f_equal.
Qed.

Lemma print_chart_rule_loop_spec (dot : Z) (comps : list Symbol) (i : Z)
    (out : string) :
  print_chart_rule_loop dot comps i out
  = out +:+
    (if bool_decide (i ≤ dot < i + len comps) then
       symbols_text (take (Z.to_nat (dot - i)) comps) +:+ " @ "
       +:+ symbols_text (drop (Z.to_nat (dot - i)) comps)
     else symbols_text comps).
Proof.
  revert i out. induction comps as [|comp comps IH]; intros i out.
  - simpl. rewrite bool_decide_eq_false_2 by (unfold len; simpl; lia).
    by rewrite string_app_nil_r.
  - cbn [print_chart_rule_loop]. rewrite IH.
    assert (len (comp :: comps) = len comps + 1) as Hlen
      by (unfold len; simpl; lia).
    case_bool_decide as Hi.
    + subst dot. rewrite Z.sub_diag.
      rewrite (bool_decide_eq_false_2 (i + 1 ≤ i < _)) by lia.
      rewrite (bool_decide_eq_true_2 (i ≤ i < _))
        by (pose proof (len_nonneg comps); lia).
      simpl. by rewrite !string_app_assoc.
    + case_bool_decide as Hin.
      * rewrite (bool_decide_eq_true_2 (i ≤ dot < _)) by lia.
        replace (Z.to_nat (dot - i)) with (S (Z.to_nat (dot - (i + 1))))
          by lia.
        simpl. by rewrite !string_app_assoc.
      * rewrite (bool_decide_eq_false_2 (i ≤ dot < _)) by lia.
        simpl. by rewrite !string_app_assoc.
Qed.

(** X20.  The text [rule(item)] renders for an item with a non-empty production
    and a dot that is not negative: the symbols before the dot, the marker
    [" @ "], then the symbols after the dot, each symbol followed by one
    space.  A dot past the end puts the marker last. *)
Theorem print_chart_rule_spec (key : Symbol) (rule : Production)
    (dot index : Z) :
  rule ≠ [] → 0 ≤ dot →
  print_chart_rule (key, rule, dot, index)
  = Some (symbols_text (take (Z.to_nat dot) rule) +:+ " @ "
          +:+ symbols_text (drop (Z.to_nat dot) rule)).
Proof.
  intros Hrule Hdot. unfold print_chart_rule.
  destruct rule as [|comp comps] eqn:Heq; [done|]. rewrite <- Heq. f_equal.
  rewrite print_chart_rule_loop_spec. simpl. rewrite Z.sub_0_r.
  replace (len rule - 1 + 1) with (len rule) by lia.
  rewrite string_app_nil_l.
  case_bool_decide as Hin.
  - rewrite bool_decide_eq_false_2 by lia.
    rewrite take_ge, drop_ge by (unfold len in *; lia).
    simpl. by rewrite string_app_nil_r.
  - by rewrite bool_decide_eq_true_2 by lia.
Qed.

Lemma print_chart_rule_spec_witness :
  print_chart_rule ("S"%string, ["S"; "+"; "M"]%string, 2, 0)
  = Some (symbols_text (take (Z.to_nat 2) ["S"; "+"; "M"]%string) +:+ " @ "
          +:+ symbols_text (drop (Z.to_nat 2) ["S"; "+"; "M"]%string)).
Proof. apply print_chart_rule_spec; [done | lia]. Defined.

Example print_chart_rule_value :
  print_chart_rule ("S"%string, ["S"; "+"; "M"]%string, 2, 0)
  = Some "S +  @ M "%string.
Proof. reflexivity. Qed.

Lemma print_chart_items_spec (j : Z) (page : list Item) :
  (snd (print_chart_items j page) = true ↔ ∀ it, it ∈ page → it.1.1.2 ≠ [])
  ∧ (snd (print_chart_items j page) = true →
     length (fst (print_chart_items j page)) = length page).
Proof.
  revert j. induction page as [|[[[key rule] dot] index] page IH]; intros j.
  { simpl. split; [|done]. split; [|done]. by intros _ it ?%elem_of_nil. }
  cbn [print_chart_items]. destruct rule as [|comp comps].
  - simpl. split; [|done]. split; [done|]. intros H.
    exfalso. apply (H (key, [], dot, index)); [|done].
    apply elem_of_cons. by left.
  - cbn [print_chart_rule]. destruct (IH (j + 1)) as [IH1 IH2].
    destruct (print_chart_items (j + 1) page) as [lines ok]. simpl in *.
    split.
    + rewrite IH1. split.
      * intros H it [-> | ?]%elem_of_cons; [done|]. by apply H.
      * intros H it ?. apply H, elem_of_cons. auto.
    + intros ?. f_equal. auto.
Qed.

Lemma print_chart_pages_spec (pages : list (Z * StateSet)) :
  (snd (print_chart_pages pages) = true
   ↔ ∀ page it, page ∈ pages.*2 → it ∈ page → it.1.1.2 ≠ [])
  ∧ (snd (print_chart_pages pages) = true →
     length (fst (print_chart_pages pages))
     = (length pages + length (concat pages.*2))%nat).
Proof.
  induction pages as [|[i page] pages [IH1 IH2]].
  { simpl. split; [|done]. split; [|done]. by intros _ page it ?%elem_of_nil. }
  cbn [print_chart_pages]. destruct (print_chart_items_spec 0 page) as [H1 H2].
  destruct (print_chart_items 0 page) as [lines ok]. simpl in H1, H2.
  destruct ok.
  - destruct (print_chart_pages pages) as [lines' ok']. simpl in *. split.
    + rewrite IH1. split.
      * intros H page' it [-> | ?]%elem_of_cons; [by apply H1|]. by apply H.
      * intros H page' it ?. apply H, elem_of_cons. auto.
    + intros Hok. rewrite !length_app, H2, IH2 by done. unfold fmap. lia.
  - simpl. split; [|done]. split; [done|]. intros H.
    assert (false = true) as Hf; [|done].
    apply H1. intros it ?. apply (H page); [|done]. apply elem_of_cons. auto.
Qed.

Lemma page_counter_length (n : nat) (rev : bool) :
  length (page_counter n rev) = n.
Proof.
  unfold page_counter.
  destruct rev; rewrite ?length_reverse, length_fmap, length_seq; done.
Qed.

(** X21.  [print_chart] runs to its end exactly when no item of the chart has an
    empty production; otherwise [rule] raises [UnboundLocalError].  When it
    runs to its end it has printed one ruler per state set and one line per
    item. *)
Theorem print_chart_spec (chart : list StateSet) (rev : bool) :
  (snd (print_chart chart rev) = true
   ↔ ∀ page key rule dot index,
       page ∈ chart → (key, rule, dot, index) ∈ page → rule ≠ [])
  ∧ (snd (print_chart chart rev) = true →
     length (fst (print_chart chart rev))
     = (length chart + length (concat chart))%nat).
Proof.
  unfold print_chart.
  destruct (print_chart_pages_spec (zip (page_counter (length chart) rev) chart))
    as [H1 H2].
  rewrite snd_zip in H1, H2 by (rewrite page_counter_length; lia).
  rewrite length_zip_with, page_counter_length, Nat.min_id in H2.
  split; [|done]. rewrite H1. split.
  - intros H page key rule dot index ??. by apply (H page (key, rule, dot, index)).
  - intros H page [[[key rule] dot] index] ??. by eapply H.
Qed.

Lemma print_chart_spec_witness :
  (snd (print_chart chart_2_plus true) = true
   ↔ ∀ (page : StateSet) (key : Symbol) (rule : Production) (dot index : Z),
       page ∈ chart_2_plus → (key, rule, dot, index) ∈ page → rule ≠ [])
  ∧ (snd (print_chart chart_2_plus true) = true →
     length (fst (print_chart chart_2_plus true))
     = (length chart_2_plus + length (concat chart_2_plus))%nat).
Proof. apply (print_chart_spec chart_2_plus true). Defined.

(** X22.  [print_chart] never fails on a chart that [chart] has returned, with
    either value of [rev]. *)
Theorem print_chart_of_chart (fuel : nat) (g : Grammar) (start : Symbol)
    (inp : list Symbol) (history : list StateSet) (rev : bool) :
  chart fuel g start inp = Ok history →
  snd (print_chart history rev) = true
  ∧ length (fst (print_chart history rev))
    = (length history + length (concat history))%nat.
Proof.
  intros Hchart.
  assert (snd (print_chart history rev) = true) as Hok.
  { unfold print_chart.
    apply print_chart_pages_spec.
    rewrite snd_zip by (rewrite page_counter_length; lia).
    intros page [[[key rule] dot] index] [i Hi]%list_elem_of_lookup_1 Hit.
    by eapply nonempty_of_chart. }
  split; [done|]. revert Hok. unfold print_chart.
  intros Hok%print_chart_pages_spec. rewrite Hok.
  rewrite snd_zip by (rewrite page_counter_length; lia).
  by rewrite length_zip_with, page_counter_length, Nat.min_id.
Qed.

Lemma print_chart_of_chart_witness :
  snd (print_chart chart_2_plus false) = true
  ∧ length (fst (print_chart chart_2_plus false))
    = (length chart_2_plus + length (concat chart_2_plus))%nat.
Proof.
  apply (print_chart_of_chart 64 small_grammar "P" (chars "2+")).
  by vm_compute.
Defined.

(** ** Outcomes of a build *)

(** X1.  The worklist loop always stops: for every grammar, start symbol and
    input there is a result, a chart or an exception, that every large
    enough step budget yields. *)
Theorem chart_total (g : Grammar) (start : Symbol) (inp : list Symbol) :
  ∃ (fuel : nat) (r : result (list StateSet)),
    r ≠ OutOfFuel
    ∧ ∀ fuel', (fuel ≤ fuel')%nat → chart fuel' g start inp = r.
Proof.
  destruct (chart_terminates g start inp) as (fuel & Hfuel & Hmore).
  exists fuel, (chart fuel g start inp). split; [done|]. apply Hmore.
Qed.

Lemma chart_total_witness :
  ∃ (fuel : nat) (r : result (list StateSet)),
    r ≠ OutOfFuel
    ∧ ∀ fuel', (fuel ≤ fuel')%nat
        → chart fuel' small_grammar "P" (chars "2+") = r.
Proof. apply (chart_total small_grammar "P" (chars "2+")). Defined.

(** X2.  The only exceptions a build raises: [KeyError], exactly when the start
    symbol is not a key of the grammar, and otherwise [IndexError]. *)
Theorem chart_exceptions (fuel : nat) (g : Grammar) (start : Symbol)
    (inp : list Symbol) (e : exn) :
  chart fuel g start inp = Raise e →
  (e = KeyError ∧ g !! start = None)
  ∨ (e = IndexError ∧ is_Some (g !! start)).
Proof. apply chart_raises. Qed.

Lemma chart_exceptions_witness :
  (IndexError = KeyError ∧ larger_grammar !! "START"%string = None)
  ∨ (IndexError = IndexError ∧ is_Some (larger_grammar !! "START"%string)).
Proof.
  apply (chart_exceptions 64 larger_grammar "START" (chars "12")).
  by vm_compute.
Defined.

Lemma completer_complete_item_raises_witness :
  completer "Digit" [("Digit"%string, ["1"%string], len ["1"%string], 0)] []
  = Raise IndexError.
Proof.
  apply (completer_complete_item_raises "Digit" _ [] "Digit" ["1"%string] 0).
  apply elem_of_cons. by left.
Defined.

Lemma chart_dot_bounds_witness : 0 ≤ 2 ≤ len ["S"; "+"; "M"]%string.
Proof.
  apply (chart_dot_bounds 64 small_grammar "P" (chars "2+") chart_2_plus 2
           (default [] (chart_2_plus !! 2%nat)) "S" ["S"; "+"; "M"]%string 2 0).
  - by vm_compute.
  - reflexivity.
  - apply (bool_decide_unpack _). by vm_compute.
Defined.

(** ** Nullable symbols *)

Lemma chart_fresh_item_not_nullable (fuel : nat) (g : Grammar)
    (start : Symbol) (inp : list Symbol) (history : list StateSet) (i : nat)
    (key : Symbol) (rule : Production) :
  chart fuel g start inp = Ok history →
  at_pos history i (key, rule, 0, Z.of_nat i) →
  ¬ derives g rule [].
Proof.
  intros Hchart Hat Hd.
  destruct (chart_Inv _ _ _ _ _ Hchart) as [nextQ HI].
  pose proof (Inv_closed _ _ _ _ HI) as Hclosed.
  apply (closed_derives g inp history rule [] Hclosed Hd i key rule 0
           (Z.of_nat i) []) in Hat; [|done|by rewrite app_nil_r|done].
  simpl in Hat. rewrite Nat.add_0_r in Hat.
  destruct (inv_complete _ _ _ _ _ _ HI i key rule (len rule) (Z.of_nat i))
    as [Hlt _]; [done|lia|lia].
Qed.

(** X10.  In a returned chart no item waits for a symbol that can derive the
    empty sequence. *)
Theorem chart_expects_not_nullable (fuel : nat) (g : Grammar) (start : Symbol)
    (inp : list Symbol) (history : list StateSet) (i : nat) (s : StateSet)
    (it : Item) (x : Symbol) :
  chart fuel g start inp = Ok history →
  history !! i = Some s → it ∈ s → expects it x →
  ¬ derives g [x] [].
Proof.
  intros Hchart Hs Hit Hexp Hd.
  assert (at_pos history i it) as Hat by (exists s; done).
  destruct (chart_Inv _ _ _ _ _ Hchart) as [nextQ HI].
  pose proof (Inv_closed _ _ _ _ HI) as Hclosed.
  inversion Hd as [| |y rules p alpha w1 w2 Hg Hp Hd1 Hd2 [Hy Ha] Hw]; subst.
  apply app_eq_nil in Hw as [-> ->].
  destruct (Hclosed i it Hat) as (Hpredict & _ & _).
  specialize (Hpredict x rules p Hexp Hg Hp).
  by eapply chart_fresh_item_not_nullable.
Qed.

(** X3.  A build never returns a chart when the start symbol can derive the
    empty sequence: on every input it ends with [IndexError]. *)
Theorem chart_nullable_start_raises (g : Grammar) (start : Symbol)
    (inp : list Symbol) :
  derives g [start] [] →
  ∃ fuel : nat, ∀ fuel', (fuel ≤ fuel')%nat →
    chart fuel' g start inp = Raise IndexError.
Proof.
  intros Hd. destruct (chart_terminates g start inp) as (fuel & Hfuel & Hmore).
  exists fuel. intros fuel' Hle. rewrite Hmore by done.
  inversion Hd as [| |y rules p alpha w1 w2 Hg Hp Hd1 Hd2 [Hy Ha] Hw]; subst.
  apply app_eq_nil in Hw as [-> ->].
  destruct (chart fuel g start inp) as [history|e|] eqn:Hchart; [| |done].
  - exfalso.
    eapply (chart_fresh_item_not_nullable _ _ _ _ _ 0 start p); [done| |done].
    by eapply chart_seeds.
  - apply chart_raises in Hchart as [[-> Hnone] | [-> _]]; [|done].
    congruence.
Qed.

Lemma chart_expects_not_nullable_witness :
  ¬ derives small_grammar ["S"%string] [].
Proof.
  apply (chart_expects_not_nullable 64 small_grammar "P" (chars "2+")
           chart_2_plus 0 (default [] (chart_2_plus !! 0%nat))
           ("P"%string, ["S"%string], 0, 0) "S").
  - by vm_compute.
  - reflexivity.
  - apply (bool_decide_unpack _). by vm_compute.
  - apply (bool_decide_unpack _). by vm_compute.
Defined.

Lemma chart_nullable_start_raises_witness :
  derives nullable_grammar ["S"%string] []
  ∧ ∃ fuel : nat, ∀ fuel', (fuel ≤ fuel')%nat →
      chart fuel' nullable_grammar "S" [] = Raise IndexError.
Proof.
  assert (derives nullable_grammar ["S"%string] []) as Hd.
  { apply (derives_nonterminal nullable_grammar "S" [[]] [] [] [] []).
    - reflexivity.
    - apply (bool_decide_unpack _). by vm_compute.
    - apply derives_nil.
    - apply derives_nil. }
  split; [exact Hd|].
  apply (chart_nullable_start_raises nullable_grammar "S" [] Hd).
Defined.
